(** * Battleship: shot resolution, ships and board

    A shallow embedding of [battleship.go] (package [main]): the [Ship]
    interface with its two implementations, the [Board] and its
    rendering, the [Game] with [TakeShot], the console loop, the HTTP
    handlers and the game that [main] starts.

    Conventions.
    - Go's [int] is a 64-bit two's complement integer; it is embedded as
      [Z], and every arithmetic operation of the source that can leave
      the range is wrapped with [wrap].
    - A [rune] is an integer code point; the four cell markers are the
      code points of ['.'], ['o'], ['H'] and ['X'].
    - Methods with pointer receivers mutate their receiver; here they
      take the old value and return the new one (explicit state passing).
    - A run-time panic (index out of range, [make] with a negative
      length) is [None] in the [option] monad. *)

From Stdlib Require Import ZArith Lia Ascii String.
From stdpp Require Import base option list.

Local Open Scope Z_scope.

(** ** Machine integers and runes *)

Abbreviation int := Z (only parsing).

Definition int_bits : Z := 64.
Definition min_int : int := - 2 ^ (int_bits - 1).
Definition max_int : int := 2 ^ (int_bits - 1) - 1.

(** Two's complement reduction of an exact result to [int]. *)
Definition wrap (z : Z) : int :=
  (z + 2 ^ (int_bits - 1)) mod 2 ^ int_bits - 2 ^ (int_bits - 1).

Definition is_int (z : Z) : Prop := min_int <= z <= max_int.

Abbreviation rune := Z (only parsing).

Definition rune_lit (a : ascii) : rune := Z.of_nat (nat_of_ascii a).

Definition error : Type := string.

(** ** Slices

    [index] is [l[i]], [store] is [l[i] = v], [make_slice] is
    [make([]T, n)]; each panics as Go does. *)

Definition in_range {A} (l : list A) (i : int) : bool :=
  (0 <=? i) && (i <? Z.of_nat (length l)).

Definition index {A} (l : list A) (i : int) : option A :=
  if in_range l i then l !! Z.to_nat i else None.

Definition store {A} (l : list A) (i : int) (v : A) : option (list A) :=
  if in_range l i then Some (<[Z.to_nat i := v]> l) else None.

Definition make_slice {A} (n : int) (zero : A) : option (list A) :=
  if n <? 0 then None else Some (replicate (Z.to_nat n) zero).

(** [for i := 0; i < n; i++ { body }] over a state [St]; the loop runs
    [max n 0] times, and the counter is incremented as an [int]. *)
Fixpoint for_loop {St} (fuel : nat) (i : int)
    (body : int -> St -> option St) (st : St) : option St :=
  match fuel with
  | O => Some st
  | S fuel' => st' ← body i st; for_loop fuel' (wrap (i + 1)) body st'
  end.

Definition for_range {St} (n : int) (body : int -> St -> option St)
    (st : St) : option St :=
  for_loop (Z.to_nat n) 0 body st.

(** ** Ships *)

Module Ship.
(** [type Ship interface { Position; Alive; TakeHit }]. *)
Class t (S : Type) : Type := {
  Position : S -> int * int;
  Alive : S -> bool;
  TakeHit : S -> bool * S
}.
End Ship.

Module BasicShip.
Record t : Type := mk { Row : int; Col : int; hp : int }.

Definition Position (s : t) : int * int := (Row s, Col s).

Definition Alive (s : t) : bool := hp s >? 0.

Definition TakeHit (s : t) : bool * t :=
  if hp s <=? 0 then (true, s)
  else
    let s := mk (Row s) (Col s) (wrap (hp s - 1)) in
    (hp s <=? 0, s).
End BasicShip.

Definition NewBasicShip (row col : int) : BasicShip.t :=
  BasicShip.mk row col 1.

Module ArmoredShip.
Record t : Type := mk { Row : int; Col : int; Armor : int }.

Definition Position (s : t) : int * int := (Row s, Col s).

Definition Alive (s : t) : bool := Armor s >? 0.

Definition TakeHit (s : t) : bool * t :=
  if Armor s <=? 0 then (true, s)
  else
    let s := mk (Row s) (Col s) (wrap (Armor s - 1)) in
    (Armor s <=? 0, s).
End ArmoredShip.

Definition NewArmoredShip (row col armor : int) : ArmoredShip.t :=
  ArmoredShip.mk row col armor.

#[export] Instance BasicShip_Ship : Ship.t BasicShip.t := {
  Ship.Position := BasicShip.Position;
  Ship.Alive := BasicShip.Alive;
  Ship.TakeHit := BasicShip.TakeHit
}.

#[export] Instance ArmoredShip_Ship : Ship.t ArmoredShip.t := {
  Ship.Position := ArmoredShip.Position;
  Ship.Alive := ArmoredShip.Alive;
  Ship.TakeHit := ArmoredShip.TakeHit
}.

(** A value of interface type [Ship] as the program builds it: one of
    the two implementations, with dynamic dispatch on the tag. *)
Inductive ShipValue : Type :=
| OfBasic (s : BasicShip.t)
| OfArmored (s : ArmoredShip.t).

Definition ShipValue_Position (v : ShipValue) : int * int :=
  match v with
  | OfBasic s => BasicShip.Position s
  | OfArmored s => ArmoredShip.Position s
  end.

Definition ShipValue_Alive (v : ShipValue) : bool :=
  match v with
  | OfBasic s => BasicShip.Alive s
  | OfArmored s => ArmoredShip.Alive s
  end.

Definition ShipValue_TakeHit (v : ShipValue) : bool * ShipValue :=
  match v with
  | OfBasic s => let '(d, s') := BasicShip.TakeHit s in (d, OfBasic s')
  | OfArmored s => let '(d, s') := ArmoredShip.TakeHit s in (d, OfArmored s')
  end.

#[export] Instance ShipValue_Ship : Ship.t ShipValue := {
  Ship.Position := ShipValue_Position;
  Ship.Alive := ShipValue_Alive;
  Ship.TakeHit := ShipValue_TakeHit
}.

(** Remaining hitpoints: [hp] of a basic ship, [Armor] of an armored one. *)
Definition hitpoints (v : ShipValue) : int :=
  match v with
  | OfBasic s => BasicShip.hp s
  | OfArmored s => ArmoredShip.Armor s
  end.

(** [n] successive calls of [TakeHit]: the results in call order and the
    ship after the last call. *)
Fixpoint take_hits {S} `{Ship.t S} (n : nat) (s : S) : list bool * S :=
  match n with
  | O => ([], s)
  | Datatypes.S n' =>
      let '(d, s') := Ship.TakeHit s in
      let '(ds, s'') := take_hits n' s' in
      (d :: ds, s'')
  end.

(** ** Board *)

Module Board.
Record t : Type := mk { Size : int; Cells : list (list rune) }.

Definition InBounds (b : t) (r c : int) : bool :=
  (r >=? 0) && (r <? Size b) && (c >=? 0) && (c <? Size b).

(** [b.Cells[r][c]] *)
Definition cell (b : t) (r c : int) : option rune :=
  row ← index (Cells b) r; index row c.

(** [b.Cells[r][c] = v] *)
Definition set_cell (b : t) (r c : int) (v : rune) : option t :=
  row ← index (Cells b) r;
  row' ← store row c v;
  cells' ← store (Cells b) r row';
  Some (mk (Size b) cells').
End Board.

Definition NewBoard (size : int) : option Board.t :=
  cells ← make_slice size ([] : list rune);
  let b := Board.mk size cells in
  for_range size (fun i b =>
    row ← make_slice size (0 : rune);
    cells ← store (Board.Cells b) i row;
    let b := Board.mk (Board.Size b) cells in
    for_range size (fun j b => Board.set_cell b i j (rune_lit ".")) b) b.

(** ** Game *)

Record ShotResult : Type := mkShotResult { Hit : bool; Destroyed : bool }.

Module Game.
Record t (S : Type) : Type :=
  mk { Board : Board.t; Ship : S; Over : bool; Shots : int }.
Arguments mk {S} _ _ _ _.
Arguments Board {S} _.
Arguments Ship {S} _.
Arguments Over {S} _.
Arguments Shots {S} _.

Section Methods.
Context {S : Type} `{Ship.t S}.

Definition hitAt (g : t S) (r c : int) : bool :=
  let '(sr, sc) := Ship.Position (Ship g) in
  (r =? sr) && (c =? sc) && Ship.Alive (Ship g).

Definition TakeShot (g : t S) (r c : int)
    : option (ShotResult * option error * t S) :=
  if Over g then
    Some (mkShotResult false false, Some "game is allready done"%string, g)
  else if negb (Board.InBounds (Board g) r c) then
    Some (mkShotResult false false, Some "out of range"%string, g)
  else
    let g := mk (Board g) (Ship g) (Over g) (wrap (Shots g + 1)) in
    let sr := mkShotResult false false in
    let '(shipR, shipC) := Ship.Position (Ship g) in
    if (r =? shipR) && (c =? shipC) && Ship.Alive (Ship g) then
      let sr := mkShotResult true (Destroyed sr) in
      let '(destroyed, ship) := Ship.TakeHit (Ship g) in
      let g := mk (Board g) ship (Over g) (Shots g) in
      let sr := mkShotResult (Hit sr) destroyed in
      if destroyed then
        b ← Board.set_cell (Board g) r c (rune_lit "X");
        let g := mk b (Ship g) (Over g) (Shots g) in
        let g := mk (Board g) (Ship g) true (Shots g) in
        Some (sr, None, g)
      else
        b ← Board.set_cell (Board g) r c (rune_lit "H");
        let g := mk b (Ship g) (Over g) (Shots g) in
        Some (sr, None, g)
    else
      ch ← Board.cell (Board g) r c;
      if ch =? rune_lit "." then
        b ← Board.set_cell (Board g) r c (rune_lit "o");
        let g := mk b (Ship g) (Over g) (Shots g) in
        Some (sr, None, g)
      else
        Some (sr, None, g).

(** The callers ([RunConsoleUI], the [/shot] handler) fire shot
    after shot at one game; a rejected shot is reported and the
    game goes on. *)
Fixpoint shoot (shots : list (int * int)) (g : t S) : option (t S) :=
  match shots with
  | [] => Some g
  | (r, c) :: shots' =>
      '(_, g') ← TakeShot g r c; shoot shots' g'
  end.
End Methods.
End Game.

Definition NewGame {S} (boardSize : int) (ship : S) : option (Game.t S) :=
  b ← NewBoard boardSize;
  Some (Game.mk b ship false 0).

(** The two early-exit errors of [TakeShot]. *)
Definition GameAlreadyOver : error := "game is allready done"%string.
Definition OutOfBounds : error := "out of range"%string.


(** ** Well-formed boards and cell markers *)

(** The grid of a board is [Size] rows of [Size] cells each. *)
Definition board_wf (b : Board.t) : Prop :=
  Board.Size b = Z.of_nat (length (Board.Cells b)) /\
  Forall (fun row => length row = length (Board.Cells b)) (Board.Cells b).

Definition is_water (ch : rune) : Prop :=
  ch = rune_lit "." \/ ch = rune_lit "o".

Definition is_marker (ch : rune) : Prop :=
  is_water ch \/ ch = rune_lit "H" \/ ch = rune_lit "X".

(** Every cell of [b] holds a marker, and a cell away from [pos] holds
    ['.'] or ['o']. *)
Definition markers_ok (pos : int * int) (b : Board.t) : Prop :=
  forall i j ch, Board.cell b i j = Some ch ->
    is_marker ch /\ ((i, j) <> pos -> is_water ch).

(** What every game reachable from [NewGame] satisfies, for a ship
    first placed at [pos]. *)
Definition game_ok {S} `{Ship.t S} (pos : int * int) (g : Game.t S) : Prop :=
  board_wf (Game.Board g) /\
  markers_ok pos (Game.Board g) /\
  Ship.Position (Game.Ship g) = pos.

(** ** Rendering

    [Board.String] appends, row after row, [fmt.Sprintf("%c ", cell)]
    to a string. Go strings are byte strings; [%c] writes the UTF-8
    encoding of the rune, and U+FFFD for what is not a Unicode scalar
    value (a negative number, a surrogate, a number above U+10FFFF). *)

Definition byte_of (z : Z) : ascii := ascii_of_N (Z.to_N z).

Definition bytes (l : list Z) : string :=
  string_of_list_ascii (byte_of <$> l).

Definition utf8 (r : rune) : string :=
  if (r <? 0) || (r >? 1114111) || ((55296 <=? r) && (r <=? 57343)) then
    bytes [239; 191; 189]
  else if r <? 128 then
    bytes [r]
  else if r <? 2048 then
    bytes [Z.lor 192 (Z.shiftr r 6); Z.lor 128 (Z.land r 63)]
  else if r <? 65536 then
    bytes [Z.lor 224 (Z.shiftr r 12);
           Z.lor 128 (Z.land (Z.shiftr r 6) 63);
           Z.lor 128 (Z.land r 63)]
  else
    bytes [Z.lor 240 (Z.shiftr r 18);
           Z.lor 128 (Z.land (Z.shiftr r 12) 63);
           Z.lor 128 (Z.land (Z.shiftr r 6) 63);
           Z.lor 128 (Z.land r 63)].

(** [fmt.Sprintf("%c ", r)] *)
Definition Sprintf_c (r : rune) : string := (utf8 r ++ " ")%string.

Definition Board_String (b : Board.t) : option string :=
  let out := ""%string in
  for_range (Board.Size b) (fun i out =>
    for_range (Board.Size b) (fun j out =>
      ch ← Board.cell b i j;
      Some (out ++ Sprintf_c ch)%string) out) out.

(** ** Console

    Standard input is the list of the outcomes of the successive calls
    of [fmt.Scan(&r, &c)]; standard output is the list of the strings
    written, one for each call of [fmt.Print] or [fmt.Println]. When
    the outcomes run out the loop is left where it stands, reading. *)

Inductive scan : Type :=
| ScanError (err : error)
| Scanned (r c : int).

Definition newline : string := String "010" EmptyString.

(** [fmt.Println(a)] and [fmt.Println(a, b)]: operands are separated
    by a space and a newline is appended. *)
Definition Println (a : string) : string := (a ++ newline)%string.
Definition Println2 (a b : string) : string :=
  (a ++ " " ++ b ++ newline)%string.

Inductive loop_state : Type := Reading | Returned.

Fixpoint RunConsoleUI {S} `{Ship.t S} (stdin : list scan) (g : Game.t S)
    (stdout : list string)
    : option (loop_state * list string * Game.t S) :=
  if Game.Over g then
    board ← Board_String (Game.Board g);
    Some (Returned, stdout ++ [Println "Final board: "; board], g)
  else
    board ← Board_String (Game.Board g);
    let stdout := stdout ++ [board] in
    match stdin with
    | [] => Some (Reading, stdout, g)
    | ScanError err :: stdin' =>
        RunConsoleUI stdin' g (stdout ++ [Println2 "error: " err])
    | Scanned r c :: stdin' =>
        '(res, err, g) ← Game.TakeShot g r c;
        match err with
        | Some err =>
            RunConsoleUI stdin' g (stdout ++ [Println2 "error: " err])
        | None =>
            let line :=
              if Destroyed res then Println "Ship destroyed"
              else if Hit res then Println "Hit, but ship is alive"
              else Println "Miss" in
            RunConsoleUI stdin' g (stdout ++ [line])
        end
    end.

(** The coordinates that were read. *)
Definition scanned (stdin : list scan) : list (int * int) :=
  omap (fun s => match s with
                 | ScanError _ => None
                 | Scanned r c => Some (r, c)
                 end) stdin.

(** ** HTTP

    The two handlers of [runHTTP]. A request to [/shot] is given by
    what [q.Get("r")] and [q.Get("c")] return (the empty string for a
    missing parameter); the reply is either [http.Error] with its
    message and status, or the map that is encoded as JSON.
    [strconv.Atoi] is a parameter. *)

Inductive response : Type :=
| HTTPError (msg : string) (code : Z)
| JSON (hit destroyed : bool) (shots : int) (board : string) (over : bool).

Section Handlers.
Variable Atoi : string -> option int.
Context {S : Type} `{Ship.t S}.

Definition shot_handler (rStr cStr : string) (g : Game.t S)
    : option (response * Game.t S) :=
  if (rStr =? "")%string || (cStr =? "")%string then
    Some (HTTPError "Need r and c" 400, g)
  else
    match Atoi rStr, Atoi cStr with
    | Some ri, Some ci =>
        '(res, err, g) ← Game.TakeShot g ri ci;
        match err with
        | Some err => Some (HTTPError err 400, g)
        | None =>
            board ← Board_String (Game.Board g);
            Some (JSON (Hit res) (Destroyed res) (Game.Shots g) board
                       (Game.Over g), g)
        end
    | _, _ => Some (HTTPError "r and c must be numbers" 400, g)
    end.

Definition board_handler (g : Game.t S) : option (string * Game.t S) :=
  board ← Board_String (Game.Board g);
  Some (board, g).

End Handlers.

(** ** Start-up

    What [main] builds from the flags [-armor] and [-size] and from the
    two numbers [row] and [col] that [rand.Intn(size)] returns;
    [rand.Intn] panics when [size] is not positive. *)

Definition main_game (armor size row col : int)
    : option (Game.t ShipValue) :=
  if size <=? 0 then None
  else
    let ship :=
      if armor >? 0 then OfArmored (NewArmoredShip row col armor)
      else OfBasic (NewBasicShip row col) in
    NewGame size ship.

(** * Machine integers *)

Lemma wrap_id (z : Z) : is_int z -> wrap z = z.
Proof.
  unfold is_int, wrap, min_int, max_int, int_bits. intros Hz.
  change (2 ^ (64 - 1)) with 9223372036854775808 in *.
  change (2 ^ 64) with 18446744073709551616.
  rewrite Z.mod_small; lia.
Qed.

Lemma max_int_val : max_int = 9223372036854775807.
Proof. reflexivity. Qed.

Lemma min_int_val : min_int = -9223372036854775808.
Proof. reflexivity. Qed.

(** * Ships *)

Lemma BasicShip_dead (s : BasicShip.t) :
  BasicShip.hp s <= 0 -> BasicShip.TakeHit s = (true, s).
Proof.
  intros Hs. unfold BasicShip.TakeHit.
  destruct (Z.leb_spec (BasicShip.hp s) 0); [reflexivity | lia].
Qed.

Lemma ArmoredShip_dead (s : ArmoredShip.t) :
  ArmoredShip.Armor s <= 0 -> ArmoredShip.TakeHit s = (true, s).
Proof.
  intros Hs. unfold ArmoredShip.TakeHit.
  destruct (Z.leb_spec (ArmoredShip.Armor s) 0); [reflexivity | lia].
Qed.

Lemma ArmoredShip_hit (row col a : int) :
  1 <= a <= max_int ->
  ArmoredShip.TakeHit (ArmoredShip.mk row col a)
  = (a =? 1, ArmoredShip.mk row col (a - 1)).
Proof.
  intros Ha. unfold ArmoredShip.TakeHit. cbn.
  destruct (Z.leb_spec a 0); [lia |].
  rewrite wrap_id by (rewrite max_int_val in Ha; unfold is_int;
                      rewrite min_int_val, max_int_val; lia).
  f_equal.
  destruct (Z.leb_spec (a - 1) 0), (Z.eqb_spec a 1); (reflexivity || lia).
Qed.

Lemma ShipValue_alive_hitpoints (v : ShipValue) :
  Ship.Alive v = true <-> 0 < hitpoints v.
Proof.
  destruct v as [s | s]; cbn [Ship.Alive ShipValue_Ship ShipValue_Alive hitpoints];
    [unfold BasicShip.Alive | unfold ArmoredShip.Alive];
    rewrite Z.gtb_ltb; apply Z.ltb_lt.
Qed.

Lemma ShipValue_position_fixed (v : ShipValue) :
  Ship.Position (Ship.TakeHit v).2 = Ship.Position v.
Proof.
  destruct v as [s | s]; cbn.
  - unfold BasicShip.TakeHit. destruct (BasicShip.hp s <=? 0); reflexivity.
  - unfold ArmoredShip.TakeHit. destruct (ArmoredShip.Armor s <=? 0); reflexivity.
Qed.

Lemma take_hits_dead (n : nat) (v : ShipValue) :
  Ship.TakeHit v = (true, v) -> take_hits n v = (replicate n true, v).
Proof.
  intros Hv. induction n as [| n IH]; cbn in *; [reflexivity |].
  rewrite Hv. cbn in IH. rewrite IH. reflexivity.
Qed.

(** Armor [a] absorbs the first [k < a] hits: each returns [false]. *)
Lemma armored_hits_below (k : nat) : forall (row col a : int),
  Z.of_nat k < a <= max_int ->
  take_hits k (NewArmoredShip row col a)
  = (replicate k false, ArmoredShip.mk row col (a - Z.of_nat k)).
Proof.
  induction k as [| k IH]; intros row col a Ha.
  - cbn. rewrite Z.sub_0_r. reflexivity.
  - change (take_hits (S k) (NewArmoredShip row col a))
      with (let '(d, s') := ArmoredShip.TakeHit (ArmoredShip.mk row col a) in
            let '(ds, s'') := take_hits k s' in (d :: ds, s'')).
    rewrite ArmoredShip_hit by lia.
    change (ArmoredShip.mk row col (a - 1))
      with (NewArmoredShip row col (a - 1)).
    rewrite IH by lia.
    destruct (Z.eqb_spec a 1); [lia |].
    cbn [replicate]. do 2 f_equal. lia.
Qed.

(** The [a]-th hit is the first to return [true]. *)
Lemma armored_hits_exact (row col a : int) :
  1 <= a <= max_int ->
  take_hits (Z.to_nat a) (NewArmoredShip row col a)
  = (replicate (Z.to_nat a - 1) false ++ [true], ArmoredShip.mk row col 0).
Proof.
  intros Ha.
  assert (Hn : exists n, a = Z.of_nat (S n))
    by (exists (Z.to_nat a - 1)%nat; lia).
  destruct Hn as [n ->]. rewrite Nat2Z.id.
  replace (S n - 1)%nat with n by lia.
  revert row col Ha.
  induction n as [| n IH]; intros row col Ha.
  - reflexivity.
  - change (take_hits (S (S n)) (NewArmoredShip row col (Z.of_nat (S (S n)))))
      with (let '(d, s') :=
              ArmoredShip.TakeHit (ArmoredShip.mk row col (Z.of_nat (S (S n)))) in
            let '(ds, s'') := take_hits (S n) s' in (d :: ds, s'')).
    rewrite ArmoredShip_hit by lia.
    replace (Z.of_nat (S (S n)) - 1) with (Z.of_nat (S n)) by lia.
    change (ArmoredShip.mk row col (Z.of_nat (S n)))
      with (NewArmoredShip row col (Z.of_nat (S n))).
    rewrite IH by lia.
    destruct (Z.eqb_spec (Z.of_nat (S (S n))) 1); [lia | reflexivity].
Qed.

(** * Slices and loops *)

Lemma in_range_spec {A} (l : list A) (i : int) :
  in_range l i = true <-> 0 <= i < Z.of_nat (length l).
Proof.
  unfold in_range. rewrite andb_true_iff, Z.leb_le, Z.ltb_lt. reflexivity.
Qed.

Lemma in_range_nat {A} (l : list A) (k : nat) :
  (k < length l)%nat -> in_range l (Z.of_nat k) = true.
Proof. intros Hk. apply in_range_spec. lia. Qed.

Lemma index_nat {A} (l : list A) (k : nat) :
  (k < length l)%nat -> index l (Z.of_nat k) = l !! k.
Proof.
  intros Hk. unfold index. rewrite in_range_nat by assumption.
  rewrite Nat2Z.id. reflexivity.
Qed.

Lemma store_nat {A} (l : list A) (k : nat) (v : A) :
  (k < length l)%nat -> store l (Z.of_nat k) v = Some (<[k := v]> l).
Proof.
  intros Hk. unfold store. rewrite in_range_nat by assumption.
  rewrite Nat2Z.id. reflexivity.
Qed.

Lemma index_Some {A} (l : list A) (i : int) (x : A) :
  index l i = Some x <-> 0 <= i < Z.of_nat (length l) /\ l !! Z.to_nat i = Some x.
Proof.
  unfold index. destruct (in_range l i) eqn:Hi.
  - apply in_range_spec in Hi. tauto.
  - split; [discriminate |]. intros [Hr _].
    apply in_range_spec in Hr. congruence.
Qed.

Lemma index_in_range {A} (l : list A) (i : int) :
  0 <= i < Z.of_nat (length l) -> exists x, index l i = Some x.
Proof.
  intros Hi. destruct (lookup_lt_is_Some_2 l (Z.to_nat i)) as [x Hx]; [lia |].
  exists x. apply index_Some. auto.
Qed.

Lemma store_Some {A} (l l' : list A) (i : int) (v : A) :
  store l i v = Some l' <->
  0 <= i < Z.of_nat (length l) /\ l' = <[Z.to_nat i := v]> l.
Proof.
  unfold store. destruct (in_range l i) eqn:Hi.
  - apply in_range_spec in Hi. split.
    + intros [= <-]. auto.
    + intros [_ ->]. reflexivity.
  - split; [discriminate |]. intros [Hr _].
    apply in_range_spec in Hr. congruence.
Qed.

Lemma insert_middle {A} (l1 l2 : list A) (x y : A) (k : nat) :
  length l1 = k -> <[k := y]> (l1 ++ x :: l2) = l1 ++ y :: l2.
Proof.
  intros <-. rewrite insert_app_r_alt by lia.
  rewrite Nat.sub_diag. reflexivity.
Qed.

(** Invariant rule for the counting loop: [P] holds of the counter and
    the state before every iteration and after the last one. *)
Lemma for_loop_inv {St} (P : nat -> St -> Prop)
    (body : int -> St -> option St) (fuel : nat) :
  forall (i : nat) (st : St),
  Z.of_nat (i + fuel) <= max_int ->
  P i st ->
  (forall j s, (i <= j < i + fuel)%nat -> P j s ->
     exists s', body (Z.of_nat j) s = Some s' /\ P (S j) s') ->
  exists st', for_loop fuel (Z.of_nat i) body st = Some st' /\
              P (i + fuel)%nat st'.
Proof.
  induction fuel as [| fuel IH]; intros i st Hmax HP Hbody.
  - exists st. rewrite Nat.add_0_r. auto.
  - destruct (Hbody i st) as (s1 & Hs1 & HP1); [lia | assumption |].
    cbn [for_loop]. rewrite Hs1. cbn.
    rewrite wrap_id by (unfold is_int; rewrite min_int_val; lia).
    replace (Z.of_nat i + 1) with (Z.of_nat (S i)) by lia.
    destruct (IH (S i) s1) as (st' & Hst' & HP'); [lia | assumption | |].
    + intros j s Hj. apply Hbody. lia.
    + exists st'. split; [assumption |].
      replace (i + S fuel)%nat with (S i + fuel)%nat by lia. assumption.
Qed.

Lemma for_range_inv {St} (P : nat -> St -> Prop)
    (body : int -> St -> option St) (n : nat) (st : St) :
  Z.of_nat n <= max_int ->
  P O st ->
  (forall j s, (j < n)%nat -> P j s ->
     exists s', body (Z.of_nat j) s = Some s' /\ P (S j) s') ->
  exists st', for_range (Z.of_nat n) body st = Some st' /\ P n st'.
Proof.
  intros Hmax HP Hbody. unfold for_range. rewrite Nat2Z.id.
  apply (for_loop_inv P body n O st); [assumption | assumption |].
  intros j s Hj. apply Hbody. lia.
Qed.

(** * Board *)

Lemma InBounds_spec (b : Board.t) (r c : int) :
  Board.InBounds b r c = true <->
  0 <= r < Board.Size b /\ 0 <= c < Board.Size b.
Proof.
  unfold Board.InBounds.
  rewrite !andb_true_iff, !Z.geb_le, !Z.ltb_lt. tauto.
Qed.

(** The rows of a new board are filled one after the other, each from
    left to right. *)
Lemma NewBoard_rows (n : nat) :
  Z.of_nat n <= max_int ->
  NewBoard (Z.of_nat n)
  = Some (Board.mk (Z.of_nat n) (replicate n (replicate n (rune_lit ".")))).
Proof.
  intros Hmax. unfold NewBoard, make_slice.
  destruct (Z.ltb_spec (Z.of_nat n) 0); [lia |].
  rewrite Nat2Z.id. cbn [mbind option_bind].
  set (full := replicate n (rune_lit ".")).
  set (outer := fun (i : nat) (b : Board.t) =>
    b = Board.mk (Z.of_nat n) (replicate i full ++ replicate (n - i) [])).
  match goal with |- for_range _ ?body ?st = _ =>
    destruct (for_range_inv outer body n st) as (b' & Hb' & Hout)
  end.
  - assumption.
  - unfold outer. rewrite Nat.sub_0_r. reflexivity.
  - intros i b Hi ->. cbn [Board.Cells Board.Size mbind option_bind].
    assert (Hlen : length (replicate i full ++ replicate (n - i) ([] : list Z)) = n)
      by (rewrite length_app, !length_replicate; lia).
    rewrite store_nat by lia. cbn [mbind option_bind].
    replace (n - i)%nat with (S (n - S i)) by lia.
    rewrite replicate_S, insert_middle by apply length_replicate.
    set (inner := fun (j : nat) (b : Board.t) =>
      b = Board.mk (Z.of_nat n)
            (replicate i full
             ++ (replicate j (rune_lit ".") ++ replicate (n - j) 0)
             :: replicate (n - S i) [])).
    match goal with |- exists _, for_range _ ?body ?st = _ /\ _ =>
      destruct (for_range_inv inner body n st) as (b' & Hb' & Hin)
    end.
    + assumption.
    + unfold inner. rewrite Nat.sub_0_r. reflexivity.
    + intros j b Hj ->. unfold Board.set_cell.
      cbn [Board.Cells Board.Size].
      rewrite index_nat
        by (rewrite length_app, length_cons, !length_replicate; lia).
      rewrite list_lookup_middle by (symmetry; apply length_replicate).
      cbn [mbind option_bind].
      rewrite store_nat by (rewrite length_app, !length_replicate; lia).
      cbn [mbind option_bind].
      rewrite store_nat
        by (rewrite length_app, length_cons, !length_replicate; lia).
      cbn [mbind option_bind].
      eexists. split; [reflexivity |]. unfold inner. f_equal.
      rewrite insert_middle by apply length_replicate.
      do 2 f_equal.
      replace (n - j)%nat with (S (n - S j)) by lia.
      rewrite replicate_S, insert_middle by apply length_replicate.
      rewrite replicate_S_end, <- app_assoc. reflexivity.
    + exists b'. split; [assumption |]. unfold inner in Hin. subst b'.
      unfold outer. f_equal.
      rewrite Nat.sub_diag, app_nil_r. fold full.
      rewrite replicate_S_end, <- app_assoc. reflexivity.
  - rewrite Hb'. unfold outer in Hout. subst b'.
    rewrite Nat.sub_diag, app_nil_r. reflexivity.
Qed.

Lemma length_store {A} (l l' : list A) (i : int) (v : A) :
  store l i v = Some l' -> length l' = length l.
Proof. intros [_ ->]%store_Some. apply length_insert. Qed.

Lemma index_store_eq {A} (l l' : list A) (i : int) (v : A) :
  store l i v = Some l' -> index l' i = Some v.
Proof.
  intros [Hi ->]%store_Some. apply index_Some.
  rewrite length_insert. split; [assumption |].
  apply list_lookup_insert_eq. lia.
Qed.

Lemma index_store_ne {A} (l l' : list A) (i j : int) (v : A) :
  store l i v = Some l' -> j <> i -> index l' j = index l j.
Proof.
  intros [Hi ->]%store_Some Hne. unfold index, in_range.
  rewrite length_insert.
  destruct ((0 <=? j) && (j <? Z.of_nat (length l))) eqn:Hj; [| reflexivity].
  apply andb_true_iff in Hj as [Hj1%Z.leb_le Hj2%Z.ltb_lt].
  apply list_lookup_insert_ne. lia.
Qed.

Lemma set_cell_Some (b b' : Board.t) (r c : int) (v : rune) :
  Board.set_cell b r c v = Some b' ->
  Board.Size b' = Board.Size b /\
  Board.cell b' r c = Some v /\
  (forall i j, (i, j) <> (r, c) -> Board.cell b' i j = Board.cell b i j) /\
  (board_wf b -> board_wf b').
Proof.
  unfold Board.set_cell, Board.cell.
  destruct (index (Board.Cells b) r) as [row |] eqn:Hrow; [| discriminate].
  cbn [mbind option_bind].
  destruct (store row c v) as [row' |] eqn:Hrow'; [| discriminate].
  cbn [mbind option_bind].
  destruct (store (Board.Cells b) r row') as [cells' |] eqn:Hcells';
    [| discriminate].
  cbn [mbind option_bind]. intros [= <-]. cbn [Board.Size Board.Cells].
  split; [reflexivity |]. split; [| split].
  - rewrite (index_store_eq _ _ _ _ Hcells'). cbn [mbind option_bind].
    apply (index_store_eq _ _ _ _ Hrow').
  - intros i j Hij. destruct (Z.eq_dec i r) as [-> | Hir].
    + rewrite (index_store_eq _ _ _ _ Hcells'), Hrow.
      cbn [mbind option_bind].
      apply (index_store_ne _ _ _ _ _ Hrow'). congruence.
    + rewrite (index_store_ne _ _ _ _ _ Hcells') by assumption. reflexivity.
  - intros [Hsize Hrows]. split; cbn [Board.Size Board.Cells].
    + rewrite (length_store _ _ _ _ Hcells'). assumption.
    + rewrite (length_store _ _ _ _ Hcells').
      apply store_Some in Hcells' as [_ ->].
      apply Forall_insert; [assumption |].
      rewrite (length_store _ _ _ _ Hrow').
      apply index_Some in Hrow as [_ Hrow].
      apply (proj1 (Forall_lookup _ _) Hrows _ _ Hrow).
Qed.

Lemma cell_in_bounds (b : Board.t) (r c : int) :
  board_wf b -> Board.InBounds b r c = true ->
  exists ch, Board.cell b r c = Some ch.
Proof.
  intros [Hsize Hrows] [Hr Hc]%InBounds_spec. unfold Board.cell.
  destruct (index_in_range (Board.Cells b) r) as [row Hrow]; [lia |].
  rewrite Hrow. cbn [mbind option_bind].
  apply index_in_range.
  apply index_Some in Hrow as [_ Hrow].
  rewrite (proj1 (Forall_lookup _ _) Hrows _ _ Hrow). lia.
Qed.

Lemma cell_Some_in_bounds (b : Board.t) (r c : int) (ch : rune) :
  board_wf b -> Board.cell b r c = Some ch -> Board.InBounds b r c = true.
Proof.
  intros [Hsize Hrows]. unfold Board.cell.
  destruct (index (Board.Cells b) r) as [row |] eqn:Hrow; [| discriminate].
  cbn [mbind option_bind]. intros [Hc _]%index_Some.
  apply index_Some in Hrow as [Hr Hrow].
  rewrite (proj1 (Forall_lookup _ _) Hrows _ _ Hrow) in Hc.
  apply InBounds_spec. lia.
Qed.

Lemma set_cell_in_bounds (b : Board.t) (r c : int) (v : rune) :
  board_wf b -> Board.InBounds b r c = true ->
  exists b', Board.set_cell b r c v = Some b'.
Proof.
  intros [Hsize Hrows] [Hr Hc]%InBounds_spec. unfold Board.set_cell.
  destruct (index_in_range (Board.Cells b) r) as [row Hrow]; [lia |].
  rewrite Hrow. cbn [mbind option_bind].
  apply index_Some in Hrow as [_ Hrow].
  pose proof (proj1 (Forall_lookup _ _) Hrows _ _ Hrow) as Hlen.
  cbn beta in Hlen.
  unfold store. rewrite !(proj2 (in_range_spec _ _)) by lia.
  cbn [mbind option_bind]. eexists. reflexivity.
Qed.

Lemma NewBoard_spec (size : int) :
  0 <= size <= max_int ->
  exists b, NewBoard size = Some b /\ board_wf b /\ Board.Size b = size /\
    forall i j ch, Board.cell b i j = Some ch -> ch = rune_lit ".".
Proof.
  intros Hsize. rewrite <- (Z2Nat.id size) by lia.
  set (n := Z.to_nat size).
  rewrite NewBoard_rows by lia. eexists. split; [reflexivity |].
  split; [| split].
  - split; cbn [Board.Size Board.Cells].
    + rewrite length_replicate. reflexivity.
    + rewrite length_replicate. apply Forall_replicate, length_replicate.
  - reflexivity.
  - intros i j ch. unfold Board.cell. cbn [Board.Cells].
    destruct (index _ i) as [row |] eqn:Hrow; [| discriminate].
    cbn [mbind option_bind]. intros [_ Hch]%index_Some.
    apply index_Some in Hrow as [_ Hrow].
    apply lookup_replicate in Hrow as [-> _].
    apply lookup_replicate in Hch as [-> _]. reflexivity.
Qed.

(** * Shot resolution *)

Section TakeShot.
Context {S : Type} `{Ship.t S}.

Lemma hitAt_spec (g : Game.t S) (r c : int) :
  Game.hitAt g r c = true <->
  Ship.Position (Game.Ship g) = (r, c) /\ Ship.Alive (Game.Ship g) = true.
Proof.
  unfold Game.hitAt. destruct (Ship.Position (Game.Ship g)) as [sr sc].
  rewrite !andb_true_iff, !Z.eqb_eq. split.
  - intros [[-> ->] Ha]. auto.
  - intros [[= -> ->] Ha]. auto.
Qed.

Lemma hitAt_false (g : Game.t S) (r c : int) :
  Ship.Position (Game.Ship g) <> (r, c) \/ Ship.Alive (Game.Ship g) = false ->
  Game.hitAt g r c = false.
Proof.
  intros Hmiss. destruct (Game.hitAt g r c) eqn:Hhit; [| reflexivity].
  apply hitAt_spec in Hhit as [Hpos Halive].
  destruct Hmiss; congruence.
Qed.

(** A shot on a finished game, or off the board, is rejected before
    anything is touched. *)
Lemma TakeShot_rejected (g : Game.t S) (r c : int) :
  Game.Over g = true \/ Board.InBounds (Game.Board g) r c = false ->
  exists e, Game.TakeShot g r c = Some (mkShotResult false false, Some e, g).
Proof.
  unfold Game.TakeShot. intros [Hover | Hout].
  - rewrite Hover. eauto.
  - destruct (Game.Over g); [eauto |]. rewrite Hout. cbn. eauto.
Qed.

(** An accepted shot: the two branches of [TakeShot], with the
    successive field updates of [g] collected into one record. *)
Lemma TakeShot_accepted (g : Game.t S) (r c : int) :
  Game.Over g = false ->
  Board.InBounds (Game.Board g) r c = true ->
  Game.TakeShot g r c =
    let shots := wrap (Game.Shots g + 1) in
    if Game.hitAt g r c then
      let destroyed := (Ship.TakeHit (Game.Ship g)).1 in
      let ship := (Ship.TakeHit (Game.Ship g)).2 in
      b ← Board.set_cell (Game.Board g) r c
            (if destroyed then rune_lit "X" else rune_lit "H");
      Some (mkShotResult true destroyed, None, Game.mk b ship destroyed shots)
    else
      ch ← Board.cell (Game.Board g) r c;
      if ch =? rune_lit "." then
        b ← Board.set_cell (Game.Board g) r c (rune_lit "o");
        Some (mkShotResult false false, None,
              Game.mk b (Game.Ship g) false shots)
      else
        Some (mkShotResult false false, None,
              Game.mk (Game.Board g) (Game.Ship g) false shots).
Proof.
  intros Hover Hin. unfold Game.TakeShot, Game.hitAt.
  rewrite Hover, Hin.
  cbn [negb Game.Board Game.Ship Game.Over Game.Shots Hit Destroyed].
  destruct (Ship.Position (Game.Ship g)) as [shipR shipC].
  destruct ((r =? shipR) && (c =? shipC) && Ship.Alive (Game.Ship g)).
  - destruct (Ship.TakeHit (Game.Ship g)) as [[|] ship]; reflexivity.
  - reflexivity.
Qed.

Lemma hit_branch (g : Game.t S) (r c : int) :
  board_wf (Game.Board g) ->
  Game.Over g = false ->
  Board.InBounds (Game.Board g) r c = true ->
  Game.hitAt g r c = true ->
  exists b,
    Board.set_cell (Game.Board g) r c
      (if (Ship.TakeHit (Game.Ship g)).1 then rune_lit "X" else rune_lit "H")
    = Some b /\
    Game.TakeShot g r c
    = Some (mkShotResult true (Ship.TakeHit (Game.Ship g)).1, None,
            Game.mk b (Ship.TakeHit (Game.Ship g)).2
                    (Ship.TakeHit (Game.Ship g)).1
                    (wrap (Game.Shots g + 1))).
Proof.
  intros Hwf Hover Hin Hhit.
  rewrite TakeShot_accepted by assumption. cbn zeta. rewrite Hhit.
  destruct (set_cell_in_bounds (Game.Board g) r c
              (if (Ship.TakeHit (Game.Ship g)).1
               then rune_lit "X" else rune_lit "H") Hwf Hin) as [b Hb].
  exists b. rewrite Hb. auto.
Qed.

Lemma miss_branch (g : Game.t S) (r c : int) :
  board_wf (Game.Board g) ->
  Game.Over g = false ->
  Board.InBounds (Game.Board g) r c = true ->
  Game.hitAt g r c = false ->
  exists ch b,
    Board.cell (Game.Board g) r c = Some ch /\
    (if ch =? rune_lit "."
     then Board.set_cell (Game.Board g) r c (rune_lit "o") = Some b
     else b = Game.Board g) /\
    Game.TakeShot g r c
    = Some (mkShotResult false false, None,
            Game.mk b (Game.Ship g) false (wrap (Game.Shots g + 1))).
Proof.
  intros Hwf Hover Hin Hhit.
  rewrite TakeShot_accepted by assumption. cbn zeta. rewrite Hhit.
  destruct (cell_in_bounds _ _ _ Hwf Hin) as [ch Hch].
  rewrite Hch. cbn [mbind option_bind]. exists ch.
  destruct (ch =? rune_lit ".").
  - destruct (set_cell_in_bounds (Game.Board g) r c (rune_lit "o") Hwf Hin)
      as [b Hb].
    exists b. rewrite Hb. auto.
  - exists (Game.Board g). auto.
Qed.

End TakeShot.

(** ** Sequences of shots *)

Section Shooting.
Context {S : Type} `{Ship.t S}.

Lemma TakeShot_wf (g : Game.t S) (r c : int) :
  board_wf (Game.Board g) ->
  exists res err g',
    Game.TakeShot g r c = Some (res, err, g') /\ board_wf (Game.Board g').
Proof.
  intros Hwf.
  destruct (Game.Over g) eqn:Hover;
    [| destruct (Board.InBounds (Game.Board g) r c) eqn:Hin].
  - destruct (TakeShot_rejected g r c) as [e He]; eauto 6.
  - destruct (Game.hitAt g r c) eqn:Hhit.
    + destruct (hit_branch g r c) as (b & Hb & Hshot); try assumption.
      do 3 eexists. split; [exact Hshot |].
      apply (set_cell_Some _ _ _ _ _ Hb). assumption.
    + destruct (miss_branch g r c) as (ch & b & Hch & Hb & Hshot);
        try assumption.
      do 3 eexists. split; [exact Hshot |]. cbn [Game.Board].
      destruct (ch =? rune_lit ".").
      * apply (set_cell_Some _ _ _ _ _ Hb). assumption.
      * subst b. assumption.
  - destruct (TakeShot_rejected g r c) as [e He]; eauto 6.
Qed.

Lemma shoot_wf (shots : list (int * int)) : forall g : Game.t S,
  board_wf (Game.Board g) ->
  exists g', Game.shoot shots g = Some g' /\ board_wf (Game.Board g').
Proof.
  induction shots as [| [r c] shots IH]; intros g Hwf.
  - exists g. auto.
  - destruct (TakeShot_wf g r c Hwf) as (res & err & g1 & Hshot & Hwf1).
    cbn [Game.shoot]. rewrite Hshot. cbn [mbind option_bind].
    apply IH, Hwf1.
Qed.

(** The size of the board never changes. *)
Lemma TakeShot_Size (g g' : Game.t S) (r c : int)
    (res : ShotResult) (err : option error) :
  Game.TakeShot g r c = Some (res, err, g') ->
  Board.Size (Game.Board g') = Board.Size (Game.Board g).
Proof.
  destruct (Game.Over g) eqn:Hover;
    [| destruct (Board.InBounds (Game.Board g) r c) eqn:Hin].
  - destruct (TakeShot_rejected g r c) as [e ->]; [auto |].
    intros [= _ _ <-]. reflexivity.
  - rewrite TakeShot_accepted by assumption. cbn zeta.
    destruct (Game.hitAt g r c).
    + destruct (Board.set_cell _ _ _ _) as [b |] eqn:Hb; [| discriminate].
      intros [= _ _ <-]. apply (set_cell_Some _ _ _ _ _ Hb).
    + destruct (Board.cell _ _ _) as [ch |]; [| discriminate].
      cbn [mbind option_bind]. destruct (ch =? rune_lit ".").
      * destruct (Board.set_cell _ _ _ _) as [b |] eqn:Hb; [| discriminate].
        intros [= _ _ <-]. apply (set_cell_Some _ _ _ _ _ Hb).
      * intros [= _ _ <-]. reflexivity.
  - destruct (TakeShot_rejected g r c) as [e ->]; [auto |].
    intros [= _ _ <-]. reflexivity.
Qed.

Lemma shoot_Size (shots : list (int * int)) : forall g g' : Game.t S,
  Game.shoot shots g = Some g' ->
  Board.Size (Game.Board g') = Board.Size (Game.Board g).
Proof.
  induction shots as [| [r c] shots IH]; intros g g' Hrun.
  - injection Hrun as <-. reflexivity.
  - cbn [Game.shoot] in Hrun.
    destruct (Game.TakeShot g r c) as [[[res err] g1] |] eqn:Hshot;
      [| discriminate].
    cbn [mbind option_bind] in Hrun.
    rewrite (IH _ _ Hrun). apply (TakeShot_Size _ _ _ _ _ _ Hshot).
Qed.

Hypothesis Position_fixed :
  forall s : S, Ship.Position (Ship.TakeHit s).2 = Ship.Position s.

Lemma markers_ok_set_cell (pos : int * int) (b b' : Board.t)
    (r c : int) (v : rune) :
  markers_ok pos b ->
  Board.set_cell b r c v = Some b' ->
  is_marker v ->
  ((r, c) <> pos -> is_water v) ->
  markers_ok pos b'.
Proof.
  intros Hok Hset Hv Hw i j ch Hch.
  destruct (set_cell_Some _ _ _ _ _ Hset) as (_ & Hrc & Hother & _).
  destruct (decide ((i, j) = (r, c))) as [[= -> ->] | Hne].
  - rewrite Hrc in Hch. injection Hch as <-. auto.
  - rewrite Hother in Hch by assumption. apply (Hok i j ch Hch).
Qed.

Lemma TakeShot_game_ok (pos : int * int) (g : Game.t S) (r c : int) :
  game_ok pos g ->
  exists res err g',
    Game.TakeShot g r c = Some (res, err, g') /\ game_ok pos g'.
Proof.
  intros (Hwf & Hok & Hpos).
  destruct (Game.Over g) eqn:Hover;
    [| destruct (Board.InBounds (Game.Board g) r c) eqn:Hin].
  - destruct (TakeShot_rejected g r c) as [e He]; [auto |].
    do 3 eexists. split; [exact He |]. exact (conj Hwf (conj Hok Hpos)).
  - destruct (Game.hitAt g r c) eqn:Hhit.
    + destruct (hit_branch g r c) as (b & Hb & Hshot); try assumption.
      apply hitAt_spec in Hhit as [Hrc _].
      do 3 eexists. split; [exact Hshot |].
      split; [| split]; cbn [Game.Board Game.Ship].
      * apply (set_cell_Some _ _ _ _ _ Hb). assumption.
      * apply (markers_ok_set_cell pos _ _ _ _ _ Hok Hb).
        -- unfold is_marker. destruct (Ship.TakeHit (Game.Ship g)).1; auto.
        -- congruence.
      * rewrite Position_fixed. assumption.
    + destruct (miss_branch g r c) as (ch & b & Hch & Hb & Hshot);
        try assumption.
      do 3 eexists. split; [exact Hshot |].
      split; [| split]; cbn [Game.Board Game.Ship]; [| | assumption].
      * destruct (ch =? rune_lit ".").
        -- apply (set_cell_Some _ _ _ _ _ Hb). assumption.
        -- subst b. assumption.
      * destruct (ch =? rune_lit ".").
        -- apply (markers_ok_set_cell pos _ _ _ _ _ Hok Hb);
             unfold is_marker, is_water; auto.
        -- subst b. assumption.
  - destruct (TakeShot_rejected g r c) as [e He]; [auto |].
    do 3 eexists. split; [exact He |]. exact (conj Hwf (conj Hok Hpos)).
Qed.

Lemma shoot_game_ok (pos : int * int) (shots : list (int * int)) :
  forall g : Game.t S,
  game_ok pos g -> exists g', Game.shoot shots g = Some g' /\ game_ok pos g'.
Proof.
  induction shots as [| [r c] shots IH]; intros g Hg.
  - exists g. auto.
  - destruct (TakeShot_game_ok pos g r c Hg) as (res & err & g1 & Hshot & Hg1).
    cbn [Game.shoot]. rewrite Hshot. cbn [mbind option_bind].
    apply IH, Hg1.
Qed.

End Shooting.

Lemma NewGame_spec {S} `{Ship.t S} (size : int) (ship : S) :
  0 <= size <= max_int ->
  exists b, NewGame size ship = Some (Game.mk b ship false 0) /\
    Board.Size b = size /\ game_ok (Ship.Position ship) (Game.mk b ship false 0).
Proof.
  intros Hsize. unfold NewGame.
  destruct (NewBoard_spec size Hsize) as (b & Hb & Hwf & Hsz & Hdots).
  exists b. rewrite Hb. cbn [mbind option_bind].
  split; [reflexivity |]. split; [assumption |].
  split; [assumption |]. split; [| reflexivity].
  intros i j ch Hch. rewrite (Hdots i j ch Hch).
  unfold is_marker, is_water. auto.
Qed.

(** * Scenarios

    The worked scenarios of the specification, run on the embedding. *)

Example scenario_basic :
  (g ← NewGame 1 (OfBasic (NewBasicShip 0 0)); Game.TakeShot g 0 0)
  = Some (mkShotResult true true, None,
          Game.mk (Board.mk 1 [[rune_lit "X"]])
                  (OfBasic (BasicShip.mk 0 0 0)) true 1).
Proof. vm_compute. reflexivity. Qed.

Example scenario_armored :
  (g ← NewGame 3 (OfArmored (NewArmoredShip 1 1 2));
   '(res1, _, g) ← Game.TakeShot g 1 1;
   '(res2, _, g) ← Game.TakeShot g 1 1;
   Some (res1, Board.cell (Game.Board g) 1 1, res2, Game.Over g))
  = Some (mkShotResult true false, Some (rune_lit "X"),
          mkShotResult true true, true).
Proof. vm_compute. reflexivity. Qed.

Example scenario_repeated_miss :
  (g ← NewGame 2 (OfBasic (NewBasicShip 0 0));
   '(res1, _, g) ← Game.TakeShot g 1 1;
   '(res2, _, g) ← Game.TakeShot g 1 1;
   Some (res1, res2, Board.Cells (Game.Board g), Game.Shots g))
  = Some (mkShotResult false false, mkShotResult false false,
          [[rune_lit "."; rune_lit "."]; [rune_lit "."; rune_lit "o"]], 2).
Proof. vm_compute. reflexivity. Qed.

Example scenario_out_of_range :
  (g ← NewGame 5 (OfBasic (NewBasicShip 2 3));
   '(_, err, g') ← Game.TakeShot g 5 5;
   Some (err, Game.Shots g'))
  = Some (Some OutOfBounds, 0).
Proof. vm_compute. reflexivity. Qed.

(** * The specification's claims *)

(** C8. For every board of size [N] and every pair of integers
    [(r, c)], [InBounds] answers [true] exactly when [0 <= r < N] and
    [0 <= c < N]. *)
Theorem InBounds_iff (b : Board.t) (r c : int) :
  Board.InBounds b r c = true <->
  0 <= r < Board.Size b /\ 0 <= c < Board.Size b.
Proof. apply InBounds_spec. Qed.

(** C3. On a game that is over, [TakeShot] fails with the
    game-already-over error whatever the coordinates, and the game (shot
    counter, board and ship) is returned as it was. *)
Theorem TakeShot_game_over {S} `{Ship.t S} (g : Game.t S) (r c : int) :
  Game.Over g = true ->
  Game.TakeShot g r c
  = Some (mkShotResult false false, Some GameAlreadyOver, g).
Proof. intros Hover. unfold Game.TakeShot. rewrite Hover. reflexivity. Qed.

Lemma TakeShot_game_over_witness :
  Game.TakeShot
    (Game.mk (Board.mk 1 [[rune_lit "X"]]) (NewBasicShip 0 0) true 1) 0 0
  = Some (mkShotResult false false, Some GameAlreadyOver,
          Game.mk (Board.mk 1 [[rune_lit "X"]]) (NewBasicShip 0 0) true 1).
Proof.
  apply (TakeShot_game_over
           (Game.mk (Board.mk 1 [[rune_lit "X"]]) (NewBasicShip 0 0) true 1)
           0 0).
  reflexivity.
Defined.

(** C4. On a game that is not over, a shot at coordinates that
    [InBounds] refuses fails with the out-of-range error, and the game
    (shot counter, board and ship) is returned as it was. *)
Theorem TakeShot_out_of_bounds {S} `{Ship.t S} (g : Game.t S) (r c : int) :
  Game.Over g = false ->
  Board.InBounds (Game.Board g) r c = false ->
  Game.TakeShot g r c
  = Some (mkShotResult false false, Some OutOfBounds, g).
Proof.
  intros Hover Hout. unfold Game.TakeShot. rewrite Hover, Hout. reflexivity.
Qed.

Lemma TakeShot_out_of_bounds_witness :
  Game.TakeShot
    (Game.mk (Board.mk 1 [[rune_lit "."]]) (NewBasicShip 0 0) false 0) 5 (-1)
  = Some (mkShotResult false false, Some OutOfBounds,
          Game.mk (Board.mk 1 [[rune_lit "."]]) (NewBasicShip 0 0) false 0).
Proof.
  apply (TakeShot_out_of_bounds
           (Game.mk (Board.mk 1 [[rune_lit "."]]) (NewBasicShip 0 0) false 0)
           5 (-1)); reflexivity.
Defined.

(** C7. A ship of either kind whose remaining hitpoints are zero or
    less is left as it is by [TakeHit], which answers [true]; so is it
    by any number of further calls, each answering [true]. *)
Theorem TakeHit_dead_noop (v : ShipValue) :
  hitpoints v <= 0 ->
  Ship.TakeHit v = (true, v) /\
  forall n, take_hits n v = (replicate n true, v).
Proof.
  intros Hv.
  assert (Hhit : Ship.TakeHit v = (true, v)).
  { destruct v as [s | s]; cbn in *.
    - rewrite BasicShip_dead by assumption. reflexivity.
    - rewrite ArmoredShip_dead by assumption. reflexivity. }
  split; [assumption |]. intros n. apply take_hits_dead, Hhit.
Qed.

Lemma TakeHit_dead_noop_witness :
  Ship.TakeHit (OfArmored (NewArmoredShip 2 3 0))
  = (true, OfArmored (NewArmoredShip 2 3 0)) /\
  forall n, take_hits n (OfArmored (NewArmoredShip 2 3 0))
            = (replicate n true, OfArmored (NewArmoredShip 2 3 0)).
Proof.
  apply (TakeHit_dead_noop (OfArmored (NewArmoredShip 2 3 0))).
  cbn. lia.
Defined.

(** C6. A new basic ship is alive and its first [TakeHit] answers
    [true] and leaves it dead. A new armored ship with armor [a >= 1]
    answers [false] to each of its first [a - 1] calls of [TakeHit] and
    [true] to call number [a]; after [k <= a] calls its armor is
    [a - k], and it is alive exactly when that is positive, that is
    when [k < a]. *)
Theorem ships_hits_to_destroy :
  (forall row col : int,
     Ship.Alive (NewBasicShip row col) = true /\
     exists s, Ship.TakeHit (NewBasicShip row col) = (true, s) /\
               Ship.Alive s = false) /\
  (forall row col a : int,
     1 <= a <= max_int ->
     take_hits (Z.to_nat a) (NewArmoredShip row col a)
     = (replicate (Z.to_nat a - 1) false ++ [true],
        ArmoredShip.mk row col 0) /\
     forall k : nat, Z.of_nat k <= a ->
       let s := (take_hits k (NewArmoredShip row col a)).2 in
       ArmoredShip.Armor s = a - Z.of_nat k /\
       (Ship.Alive s = true <-> 0 < ArmoredShip.Armor s) /\
       (Ship.Alive s = true <-> Z.of_nat k < a)).
Proof.
  split.
  - intros row col. split; [reflexivity |].
    eexists. split; reflexivity.
  - intros row col a Ha. split; [apply armored_hits_exact, Ha |].
    intros k Hk. cbn zeta.
    assert (Harmor : ArmoredShip.Armor
                       (take_hits k (NewArmoredShip row col a)).2
                     = a - Z.of_nat k).
    { destruct (Z.eq_dec (Z.of_nat k) a) as [Heq | Hne].
      - subst a. rewrite <- (Nat2Z.id k) at 1.
        rewrite armored_hits_exact by assumption. cbn. lia.
      - rewrite armored_hits_below by lia. reflexivity. }
    rewrite Harmor. split; [reflexivity |].
    change (Ship.Alive ?s) with (ArmoredShip.Armor s >? 0).
    rewrite Harmor, Z.gtb_ltb, Z.ltb_lt. split; [reflexivity | lia].
Qed.

Lemma ships_hits_to_destroy_witness :
  take_hits 3 (NewArmoredShip 1 1 3)
  = ([false; false; true], ArmoredShip.mk 1 1 0).
Proof.
  apply (proj2 ships_hits_to_destroy 1 1 3). rewrite max_int_val. lia.
Defined.

(** C1. On a game that is not over, a shot at in-bounds coordinates
    [(r, c)] that are the position of a living ship is a hit:
    [TakeHit] is called on the ship once; when it answers [true] the
    cell [(r, c)] becomes ['X'], the game becomes over and the result is
    [{hit: true, destroyed: true}]; when it answers [false] the cell
    becomes ['H'], the game goes on and the result is
    [{hit: true, destroyed: false}]. No other cell changes. *)
Theorem TakeShot_hit {S} `{Ship.t S} (g : Game.t S) (r c : int) :
  board_wf (Game.Board g) ->
  Game.Over g = false ->
  Board.InBounds (Game.Board g) r c = true ->
  Ship.Position (Game.Ship g) = (r, c) ->
  Ship.Alive (Game.Ship g) = true ->
  exists g',
    Game.TakeShot g r c
    = Some (mkShotResult true (Ship.TakeHit (Game.Ship g)).1, None, g') /\
    Game.Ship g' = (Ship.TakeHit (Game.Ship g)).2 /\
    (if (Ship.TakeHit (Game.Ship g)).1
     then Board.cell (Game.Board g') r c = Some (rune_lit "X") /\
          Game.Over g' = true
     else Board.cell (Game.Board g') r c = Some (rune_lit "H") /\
          Game.Over g' = false) /\
    (forall i j, (i, j) <> (r, c) ->
       Board.cell (Game.Board g') i j = Board.cell (Game.Board g) i j).
Proof.
  intros Hwf Hover Hin Hpos Halive.
  assert (Hhit : Game.hitAt g r c = true) by (apply hitAt_spec; auto).
  destruct (hit_branch g r c Hwf Hover Hin Hhit) as (b & Hb & Hshot).
  destruct (set_cell_Some _ _ _ _ _ Hb) as (_ & Hrc & Hother & _).
  eexists. split; [exact Hshot |]. cbn [Game.Board Game.Ship Game.Over].
  split; [reflexivity |]. split; [| assumption].
  destruct (Ship.TakeHit (Game.Ship g)).1; auto.
Qed.

Lemma TakeShot_hit_witness :
  exists g',
    Game.TakeShot
      (Game.mk (Board.mk 1 [[rune_lit "."]]) (NewArmoredShip 0 0 2) false 0)
      0 0
    = Some (mkShotResult true false, None, g') /\
    Game.Ship g' = NewArmoredShip 0 0 1 /\
    (Board.cell (Game.Board g') 0 0 = Some (rune_lit "H") /\
     Game.Over g' = false) /\
    (forall i j, (i, j) <> (0, 0) ->
       Board.cell (Game.Board g') i j
       = Board.cell (Board.mk 1 [[rune_lit "."]]) i j).
Proof.
  assert (Hwf : board_wf (Board.mk 1 [[rune_lit "."]]))
    by (split; [reflexivity | repeat constructor]).
  exact (TakeShot_hit
           (Game.mk (Board.mk 1 [[rune_lit "."]]) (NewArmoredShip 0 0 2)
                    false 0) 0 0 Hwf eq_refl eq_refl eq_refl eq_refl).
Defined.

(** C2. On a game that is not over, a shot at in-bounds coordinates
    [(r, c)] that is not a hit (the ship is elsewhere, or it is not
    alive) turns the cell [(r, c)] into ['o'] when it holds ['.'], and
    leaves the board as it is when the cell holds anything else; the
    result is [{hit: false, destroyed: false}], and neither the ship
    nor the state of the game changes. *)
Theorem TakeShot_miss {S} `{Ship.t S} (g : Game.t S) (r c : int) :
  board_wf (Game.Board g) ->
  Game.Over g = false ->
  Board.InBounds (Game.Board g) r c = true ->
  Ship.Position (Game.Ship g) <> (r, c) \/ Ship.Alive (Game.Ship g) = false ->
  exists ch g',
    Board.cell (Game.Board g) r c = Some ch /\
    Game.TakeShot g r c = Some (mkShotResult false false, None, g') /\
    Board.cell (Game.Board g') r c
    = Some (if ch =? rune_lit "." then rune_lit "o" else ch) /\
    (forall i j, (i, j) <> (r, c) ->
       Board.cell (Game.Board g') i j = Board.cell (Game.Board g) i j) /\
    (ch <> rune_lit "." -> Game.Board g' = Game.Board g) /\
    Game.Ship g' = Game.Ship g /\
    Game.Over g' = false.
Proof.
  intros Hwf Hover Hin Hmiss.
  pose proof (hitAt_false g r c Hmiss) as Hhit.
  destruct (miss_branch g r c Hwf Hover Hin Hhit)
    as (ch & b & Hch & Hb & Hshot).
  exists ch. eexists. split; [assumption |]. split; [exact Hshot |].
  cbn [Game.Board Game.Ship Game.Over].
  destruct (Z.eqb_spec ch (rune_lit ".")) as [Hdot | Hdot].
  - destruct (set_cell_Some _ _ _ _ _ Hb) as (_ & Hrc & Hother & _).
    split; [assumption |]. split; [assumption |].
    split; [intros Hne; contradiction | auto].
  - subst b. split; [assumption |]. auto.
Qed.

Lemma TakeShot_miss_witness :
  exists ch g',
    Board.cell (Board.mk 1 [[rune_lit "."]]) 0 0 = Some ch /\
    Game.TakeShot
      (Game.mk (Board.mk 1 [[rune_lit "."]]) (NewArmoredShip 0 0 0) false 0)
      0 0
    = Some (mkShotResult false false, None, g') /\
    Board.cell (Game.Board g') 0 0
    = Some (if ch =? rune_lit "." then rune_lit "o" else ch) /\
    (forall i j, (i, j) <> (0, 0) ->
       Board.cell (Game.Board g') i j
       = Board.cell (Board.mk 1 [[rune_lit "."]]) i j) /\
    (ch <> rune_lit "." -> Game.Board g' = Board.mk 1 [[rune_lit "."]]) /\
    Game.Ship g' = NewArmoredShip 0 0 0 /\
    Game.Over g' = false.
Proof.
  assert (Hwf : board_wf (Board.mk 1 [[rune_lit "."]]))
    by (split; [reflexivity | repeat constructor]).
  exact (TakeShot_miss
           (Game.mk (Board.mk 1 [[rune_lit "."]]) (NewArmoredShip 0 0 0)
                    false 0) 0 0 Hwf eq_refl eq_refl (or_intror eq_refl)).
Defined.

(** C5, as the code has it. An accepted shot (game not over,
    coordinates in bounds) adds one to the shot counter in [int]
    arithmetic, whatever the outcome; the counter is exactly one more
    than before whenever it was below the largest [int]. *)
Theorem TakeShot_counts {S} `{Ship.t S} (g : Game.t S) (r c : int) :
  board_wf (Game.Board g) ->
  Game.Over g = false ->
  Board.InBounds (Game.Board g) r c = true ->
  exists res g',
    Game.TakeShot g r c = Some (res, None, g') /\
    Game.Shots g' = wrap (Game.Shots g + 1) /\
    (min_int <= Game.Shots g < max_int ->
     Game.Shots g' = Game.Shots g + 1).
Proof.
  intros Hwf Hover Hin.
  assert (Hexact : min_int <= Game.Shots g < max_int ->
                   wrap (Game.Shots g + 1) = Game.Shots g + 1).
  { intros Hs. apply wrap_id. unfold is_int. lia. }
  destruct (Game.hitAt g r c) eqn:Hhit.
  - destruct (hit_branch g r c Hwf Hover Hin Hhit) as (b & _ & Hshot).
    do 2 eexists. split; [exact Hshot |]. auto.
  - destruct (miss_branch g r c Hwf Hover Hin Hhit)
      as (ch & b & _ & _ & Hshot).
    do 2 eexists. split; [exact Hshot |]. auto.
Qed.

Lemma TakeShot_counts_witness :
  exists res g',
    Game.TakeShot
      (Game.mk (Board.mk 1 [[rune_lit "."]]) (NewBasicShip 0 0) false 41)
      0 0
    = Some (res, None, g') /\
    Game.Shots g' = wrap (41 + 1) /\
    (min_int <= 41 < max_int -> Game.Shots g' = 41 + 1).
Proof.
  assert (Hwf : board_wf (Board.mk 1 [[rune_lit "."]]))
    by (split; [reflexivity | repeat constructor]).
  exact (TakeShot_counts
           (Game.mk (Board.mk 1 [[rune_lit "."]]) (NewBasicShip 0 0)
                    false 41) 0 0 Hwf eq_refl eq_refl).
Defined.

(** C5, as the specification words it, fails on a game whose counter
    holds the largest [int]: the accepted shot leaves the smallest
    [int] in it, not the old value plus one. *)
Lemma shots_overflow_at_max_int :
  let g := Game.mk (Board.mk 1 [[rune_lit "."]]) (NewBasicShip 0 0)
                   false max_int in
  Game.Over g = false /\
  Board.InBounds (Game.Board g) 0 0 = true /\
  exists res g',
    Game.TakeShot g 0 0 = Some (res, None, g') /\
    Game.Shots g' = min_int /\
    Game.Shots g' <> Game.Shots g + 1.
Proof.
  cbn zeta. split; [reflexivity |]. split; [reflexivity |].
  do 2 eexists. split; [vm_compute; reflexivity |].
  split; [reflexivity |]. cbn. discriminate.
Qed.

(** C9. From a new game with a basic or an armored ship, after any
    sequence of shots (accepted or rejected) the ship is where it was
    placed and every cell of the board holds one of ['.'], ['o'],
    ['H'], ['X']; a cell that is not the ship's position holds ['.']
    or ['o']. *)
Theorem markers_invariant (size : int) (ship : ShipValue)
    (shots : list (int * int)) :
  0 <= size <= max_int ->
  exists g0 g,
    NewGame size ship = Some g0 /\
    Game.shoot shots g0 = Some g /\
    Board.Size (Game.Board g) = size /\
    Ship.Position (Game.Ship g) = Ship.Position ship /\
    forall i j, 0 <= i < size -> 0 <= j < size ->
      exists ch, Board.cell (Game.Board g) i j = Some ch /\
        is_marker ch /\ ((i, j) <> Ship.Position ship -> is_water ch).
Proof.
  intros Hsize.
  destruct (NewGame_spec size ship Hsize) as (b & Hnew & Hsz & Hok).
  destruct (shoot_game_ok ShipValue_position_fixed _ shots _ Hok)
    as (g & Hg & Hwf & Hmarkers & Hpos).
  exists (Game.mk b ship false 0), g.
  split; [assumption |]. split; [assumption |].
  assert (Hsz' : Board.Size (Game.Board g) = size)
    by (rewrite (shoot_Size _ _ _ Hg); assumption).
  split; [assumption |]. split; [assumption |].
  intros i j Hi Hj.
  destruct (cell_in_bounds (Game.Board g) i j Hwf) as [ch Hch].
  { apply InBounds_spec. rewrite Hsz'. auto. }
  exists ch. split; [assumption |]. apply (Hmarkers i j ch Hch).
Qed.

Lemma markers_invariant_witness :
  exists g0 g,
    NewGame 3 (OfArmored (NewArmoredShip 1 1 2)) = Some g0 /\
    Game.shoot [(1, 1); (0, 2); (5, 5); (0, 2); (1, 1); (1, 1)] g0 = Some g /\
    Board.Size (Game.Board g) = 3 /\
    Ship.Position (Game.Ship g) = (1, 1) /\
    forall i j, 0 <= i < 3 -> 0 <= j < 3 ->
      exists ch, Board.cell (Game.Board g) i j = Some ch /\
        is_marker ch /\ ((i, j) <> (1, 1) -> is_water ch).
Proof.
  assert (Hsize : 0 <= 3 <= max_int) by (rewrite max_int_val; lia).
  exact (markers_invariant 3 (OfArmored (NewArmoredShip 1 1 2))
           [(1, 1); (0, 2); (5, 5); (0, 2); (1, 1); (1, 1)] Hsize).
Defined.

(** C10. [TakeShot] never indexes the grid out of range, whatever the
    integers [r] and [c]. A rejected shot returns before the grid is
    touched: it returns even on a board whose grid is empty or ragged.
    On a board whose grid is [Size] by [Size] every shot returns, and
    leaves the grid [Size] by [Size]; so does every shot at a game
    obtained from [NewGame] by any sequence of shots. *)
Theorem TakeShot_never_out_of_range {S} `{Ship.t S} :
  (forall (g : Game.t S) (r c : int),
     Game.Over g = true \/ Board.InBounds (Game.Board g) r c = false ->
     exists e,
       Game.TakeShot g r c = Some (mkShotResult false false, Some e, g)) /\
  (forall (g : Game.t S) (r c : int),
     board_wf (Game.Board g) ->
     exists res err g',
       Game.TakeShot g r c = Some (res, err, g') /\
       board_wf (Game.Board g')) /\
  (forall (size : int) (ship : S) (shots : list (int * int)) (r c : int),
     0 <= size <= max_int ->
     exists g0 g out,
       NewGame size ship = Some g0 /\
       Game.shoot shots g0 = Some g /\
       Game.TakeShot g r c = Some out).
Proof.
  split; [exact TakeShot_rejected |]. split; [exact TakeShot_wf |].
  intros size ship shots r c Hsize.
  destruct (NewGame_spec size ship Hsize) as (b & Hnew & _ & Hwf & _).
  destruct (shoot_wf shots _ Hwf) as (g & Hg & Hwf').
  destruct (TakeShot_wf g r c Hwf') as (res & err & g' & Hshot & _).
  eauto 8.
Qed.

Lemma TakeShot_never_out_of_range_witness :
  exists res err g',
    Game.TakeShot
      (Game.mk (Board.mk 2 [[rune_lit "."; rune_lit "o"];
                            [rune_lit "."; rune_lit "."]])
               (NewBasicShip 1 0) false 1)
      (-1) (2 ^ 70)
    = Some (res, err, g') /\
    board_wf (Game.Board g').
Proof.
  assert (Hwf : board_wf (Board.mk 2 [[rune_lit "."; rune_lit "o"];
                                      [rune_lit "."; rune_lit "."]]))
    by (split; [reflexivity | repeat constructor]).
  exact (proj1 (proj2 TakeShot_never_out_of_range)
           (Game.mk (Board.mk 2 [[rune_lit "."; rune_lit "o"];
                                 [rune_lit "."; rune_lit "."]])
                    (NewBasicShip 1 0) false 1)
           (-1) (2 ^ 70) Hwf).
Defined.

(** * Further properties *)

(** ** Rendering *)

Lemma list_ascii_append (s1 s2 : string) :
  list_ascii_of_string (s1 ++ s2)
  = list_ascii_of_string s1 ++ list_ascii_of_string s2.
Proof.
  induction s1 as [| a s1 IH]; cbn; [reflexivity |]. rewrite IH. reflexivity.
Qed.

Lemma get_list_ascii (s : string) : forall k : nat,
  String.get k s = list_ascii_of_string s !! k.
Proof.
  induction s as [| a s IH]; intros [| k]; cbn; try reflexivity. apply IH.
Qed.

Lemma length_list_ascii (s : string) :
  String.length s = length (list_ascii_of_string s).
Proof. induction s as [| a s IH]; cbn; [reflexivity |]. rewrite IH. reflexivity. Qed.

(** The bytes written for a list of cells. *)
Lemma mjoin_snoc {A} (ls : list (list A)) (l : list A) :
  mjoin (ls ++ [l]) = mjoin ls ++ l.
Proof. rewrite join_app. cbn. rewrite app_nil_r. reflexivity. Qed.

Lemma Board_String_bytes (b : Board.t) :
  board_wf b ->
  Board.Size b <= max_int ->
  exists s, Board_String b = Some s /\
    list_ascii_of_string s
    = mjoin ((fun ch => list_ascii_of_string (Sprintf_c ch))
             <$> mjoin (Board.Cells b)).
Proof.
  intros [Hsize Hrows] Hmax. unfold Board_String. cbn zeta.
  set (n := length (Board.Cells b)) in *.
  set (f := fun ch : Z => list_ascii_of_string (Sprintf_c ch)).
  rewrite Hsize in *.
  set (outer := fun (i : nat) (out : string) =>
    list_ascii_of_string out
    = mjoin (f <$> mjoin (take i (Board.Cells b)))).
  match goal with |- exists _, for_range _ ?body ?st = _ /\ _ =>
    destruct (for_range_inv outer body n st) as (s & Hs & Hout)
  end.
  - assumption.
  - reflexivity.
  - intros i out Hi Hinv.
    destruct (lookup_lt_is_Some_2 (Board.Cells b) i) as [row Hrow]; [exact Hi |].
    pose proof (proj1 (Forall_lookup _ _) Hrows _ _ Hrow) as Hlen.
    cbn beta in Hlen. fold n in Hlen.
    set (inner := fun (j : nat) (out : string) =>
      list_ascii_of_string out
      = mjoin (f <$> (mjoin (take i (Board.Cells b)) ++ take j row))).
    match goal with |- exists _, for_range _ ?body ?st = _ /\ _ =>
      destruct (for_range_inv inner body n st) as (s & Hs & Hin)
    end.
    + assumption.
    + unfold inner. rewrite take_0, app_nil_r. exact Hinv.
    + intros j out' Hj Hinv'.
      destruct (lookup_lt_is_Some_2 row j) as [ch Hch]; [lia |].
      unfold Board.cell. rewrite index_nat by exact Hi. rewrite Hrow.
      cbn [mbind option_bind]. rewrite index_nat by lia. rewrite Hch.
      cbn [mbind option_bind]. eexists. split; [reflexivity |].
      unfold inner. rewrite list_ascii_append, Hinv'.
      rewrite (take_S_r _ _ _ Hch), app_assoc, !fmap_app.
      change (f <$> [ch]) with [f ch]. rewrite mjoin_snoc.
      reflexivity.
    + exists s. split; [exact Hs |]. unfold inner in Hin. unfold outer.
      rewrite Hin. rewrite (take_S_r _ _ _ Hrow), mjoin_snoc.
      rewrite (take_ge row) by lia. reflexivity.
  - exists s. split; [exact Hs |]. unfold outer in Hout.
    rewrite Hout, take_ge by (unfold n; lia). reflexivity.
Qed.

Lemma Sprintf_c_marker (ch : rune) :
  is_marker ch ->
  list_ascii_of_string (Sprintf_c ch) = [byte_of ch; " "%char].
Proof. intros [[-> | ->] | [-> | ->]]; reflexivity. Qed.

Lemma cell_lookup (b : Board.t) (i j : nat) (ch : rune) :
  Board.cell b (Z.of_nat i) (Z.of_nat j) = Some ch <->
  exists row, Board.Cells b !! i = Some row /\ row !! j = Some ch.
Proof.
  unfold Board.cell. split.
  - destruct (index (Board.Cells b) (Z.of_nat i)) as [row |] eqn:Hrow;
      [| discriminate].
    cbn [mbind option_bind]. intros [_ Hch]%index_Some.
    apply index_Some in Hrow as [_ Hrow]. rewrite Nat2Z.id in *. eauto.
  - intros (row & Hrow & Hch).
    rewrite index_nat, Hrow by (eapply lookup_lt_Some; eassumption).
    cbn [mbind option_bind].
    rewrite index_nat by (eapply lookup_lt_Some; eassumption). assumption.
Qed.

(** X1. On a board whose grid is [Size] by [Size], [String] returns
    the cells in row-major order, each written by [%c] and followed by
    one space, with nothing between the rows. *)
Theorem Board_String_row_major (b : Board.t) :
  board_wf b ->
  Board.Size b <= max_int ->
  exists s, Board_String b = Some s /\
    list_ascii_of_string s
    = mjoin ((fun ch => list_ascii_of_string (utf8 ch) ++ [" "%char])
             <$> mjoin (Board.Cells b)).
Proof.
  intros Hwf Hmax.
  destruct (Board_String_bytes b Hwf Hmax) as (s & Hs & Hbytes).
  exists s. split; [assumption |]. rewrite Hbytes. f_equal.
  apply list_fmap_ext. intros _ ch _. unfold Sprintf_c.
  apply list_ascii_append.
Qed.

Lemma Board_String_row_major_witness :
  exists s,
    Board_String (Board.mk 2 [[rune_lit "."; rune_lit "o"];
                              [rune_lit "X"; 8364]]) = Some s /\
    list_ascii_of_string s
    = mjoin ((fun ch => list_ascii_of_string (utf8 ch) ++ [" "%char])
             <$> [rune_lit "."; rune_lit "o"; rune_lit "X"; 8364]).
Proof.
  assert (Hwf : board_wf (Board.mk 2 [[rune_lit "."; rune_lit "o"];
                                      [rune_lit "X"; 8364]]))
    by (split; [reflexivity | repeat constructor]).
  assert (Hmax : 2 <= max_int) by (rewrite max_int_val; lia).
  exact (Board_String_row_major _ Hwf Hmax).
Defined.

(** X2. When every cell holds one of the four markers, the rendering
    of an [n] by [n] board has [2 * n * n] bytes: the marker of cell
    [(i, j)] is the byte at offset [2 * (i * n + j)], and the byte after
    it is a space. *)
Theorem Board_String_layout (b : Board.t) :
  board_wf b ->
  Board.Size b <= max_int ->
  (forall i j ch, Board.cell b i j = Some ch -> is_marker ch) ->
  let n := length (Board.Cells b) in
  exists s, Board_String b = Some s /\
    String.length s = (2 * n * n)%nat /\
    forall (i j : nat) (ch : rune),
      Board.cell b (Z.of_nat i) (Z.of_nat j) = Some ch ->
      String.get (2 * (i * n + j)) s = Some (byte_of ch) /\
      String.get (2 * (i * n + j) + 1) s = Some " "%char.
Proof.
  intros Hwf Hmax Hmarkers n.
  destruct (Board_String_bytes b Hwf Hmax) as (s & Hs & Hbytes).
  destruct Hwf as [Hsize Hrows]. fold n in Hrows.
  set (f := fun ch : Z => list_ascii_of_string (Sprintf_c ch)) in *.
  set (flat := mjoin (Board.Cells b)) in *.
  assert (Hflat : Forall is_marker flat).
  { apply Forall_lookup. intros k ch Hk.
    apply join_lookup_Some in Hk as (i & row & j & Hrow & Hch & _).
    apply (Hmarkers (Z.of_nat i) (Z.of_nat j)). apply cell_lookup. eauto. }
  assert (Hpairs : Forall (fun l => length l = 2%nat) (f <$> flat)).
  { apply Forall_fmap. eapply Forall_impl; [exact Hflat |].
    intros ch Hch. cbn. unfold f. rewrite Sprintf_c_marker by assumption.
    reflexivity. }
  exists s. split; [assumption |]. split.
  - rewrite length_list_ascii, Hbytes, length_join.
    rewrite (sum_list_fmap_same 2) by exact Hpairs.
    rewrite length_fmap. unfold flat. rewrite length_join.
    rewrite (sum_list_fmap_same n) by exact Hrows. fold n. lia.
  - intros i j ch Hcell. rewrite !get_list_ascii, Hbytes.
    apply cell_lookup in Hcell as (row & Hrow & Hch).
    pose proof (proj1 (Forall_lookup _ _) Hrows _ _ Hrow) as Hlen.
    cbn beta in Hlen.
    assert (Hj : (j < n)%nat)
      by (rewrite <- Hlen; eapply lookup_lt_Some; eassumption).
    assert (Hk : flat !! (i * n + j)%nat = Some ch).
    { apply (join_lookup_Some_same_length' n); [exact Hrows | exact Hj |].
      eauto. }
    assert (Hfk : (f <$> flat) !! (i * n + j)%nat
                  = Some [byte_of ch; " "%char]).
    { rewrite list_lookup_fmap, Hk. cbn. unfold f.
      rewrite Sprintf_c_marker; [reflexivity |].
      apply (proj1 (Forall_lookup _ _) Hflat _ _ Hk). }
    split.
    + replace (2 * (i * n + j))%nat with ((i * n + j) * 2 + 0)%nat by lia.
      apply (join_lookup_Some_same_length' 2); [exact Hpairs | lia |].
      eexists. split; [exact Hfk | reflexivity].
    + replace (2 * (i * n + j) + 1)%nat with ((i * n + j) * 2 + 1)%nat by lia.
      apply (join_lookup_Some_same_length' 2); [exact Hpairs | lia |].
      eexists. split; [exact Hfk | reflexivity].
Qed.

Lemma Board_String_layout_witness :
  exists s, Board_String (Board.mk 1 [[rune_lit "H"]]) = Some s /\
    String.length s = 2%nat /\
    forall (i j : nat) (ch : rune),
      Board.cell (Board.mk 1 [[rune_lit "H"]]) (Z.of_nat i) (Z.of_nat j)
      = Some ch ->
      String.get (2 * (i * 1 + j)) s = Some (byte_of ch) /\
      String.get (2 * (i * 1 + j) + 1) s = Some " "%char.
Proof.
  assert (Hwf : board_wf (Board.mk 1 [[rune_lit "H"]]))
    by (split; [reflexivity | repeat constructor]).
  assert (Hmax : 1 <= max_int) by (rewrite max_int_val; lia).
  assert (Hmarkers : forall i j ch,
            Board.cell (Board.mk 1 [[rune_lit "H"]]) i j = Some ch ->
            is_marker ch).
  { intros i j ch Hcell.
    pose proof (cell_Some_in_bounds _ _ _ _ Hwf Hcell) as Hin.
    apply InBounds_spec in Hin. cbn in Hin.
    assert (i = 0) as -> by lia. assert (j = 0) as -> by lia.
    injection Hcell as <-. right. left. reflexivity. }
  exact (Board_String_layout _ Hwf Hmax Hmarkers).
Defined.

(** ** New boards *)



(** ** Ships *)

Lemma ShipValue_TakeHit_cases (v : ShipValue) :
  (hitpoints v <= 0 /\ Ship.TakeHit v = (true, v)) \/
  (0 < hitpoints v /\
   hitpoints (Ship.TakeHit v).2 = wrap (hitpoints v - 1) /\
   (Ship.TakeHit v).1 = (wrap (hitpoints v - 1) <=? 0)).
Proof.
  destruct v as [s | s]; cbn [Ship.TakeHit ShipValue_Ship ShipValue_TakeHit
                              hitpoints].
  - unfold BasicShip.TakeHit.
    destruct (Z.leb_spec (BasicShip.hp s) 0); [left | right]; auto.
  - unfold ArmoredShip.TakeHit.
    destruct (Z.leb_spec (ArmoredShip.Armor s) 0); [left | right]; auto.
Qed.

(** X4. For a basic or an armored ship, [TakeHit] answers [true]
    exactly when the ship is not alive after the call; it never moves
    the ship; and it takes one hitpoint from a living ship and none
    from a dead one, so that a dead ship stays dead. *)
Theorem TakeHit_contract (v : ShipValue) :
  is_int (hitpoints v) ->
  (Ship.TakeHit v).1 = negb (Ship.Alive (Ship.TakeHit v).2) /\
  Ship.Position (Ship.TakeHit v).2 = Ship.Position v /\
  hitpoints (Ship.TakeHit v).2
  = (if Ship.Alive v then hitpoints v - 1 else hitpoints v) /\
  (Ship.Alive v = false -> Ship.Alive (Ship.TakeHit v).2 = false).
Proof.
  intros [Hlo Hhi].
  assert (Halive : forall w : ShipValue,
            Ship.Alive w = (hitpoints w >? 0)) by (intros [s | s]; reflexivity).
  split; [| split; [apply ShipValue_position_fixed | split]].
  - rewrite Halive.
    destruct (ShipValue_TakeHit_cases v) as [[Hdead ->] | (Hpos & -> & ->)];
      cbn [fst snd].
    + rewrite Z.gtb_ltb. destruct (Z.ltb_spec 0 (hitpoints v)); [lia | reflexivity].
    + rewrite Z.gtb_ltb, Z.leb_antisym. reflexivity.
  - rewrite Halive, Z.gtb_ltb.
    destruct (ShipValue_TakeHit_cases v) as [[Hdead ->] | (Hpos & -> & _)];
      cbn [fst snd];
      destruct (Z.ltb_spec 0 (hitpoints v)); try lia; try reflexivity.
    apply wrap_id. unfold is_int. pose proof min_int_val. lia.
  - rewrite !Halive, !Z.gtb_ltb. intros Hdead%Z.ltb_ge.
    destruct (ShipValue_TakeHit_cases v) as [[_ ->] | (Hpos & _)];
      cbn [fst snd]; [| lia].
    apply Z.ltb_ge. assumption.
Qed.

Lemma TakeHit_contract_witness :
  (Ship.TakeHit (OfArmored (NewArmoredShip 4 2 3))).1
  = negb (Ship.Alive (Ship.TakeHit (OfArmored (NewArmoredShip 4 2 3))).2) /\
  Ship.Position (Ship.TakeHit (OfArmored (NewArmoredShip 4 2 3))).2 = (4, 2) /\
  hitpoints (Ship.TakeHit (OfArmored (NewArmoredShip 4 2 3))).2 = 2 /\
  (Ship.Alive (OfArmored (NewArmoredShip 4 2 3)) = false ->
   Ship.Alive (Ship.TakeHit (OfArmored (NewArmoredShip 4 2 3))).2 = false).
Proof.
  assert (Hint : is_int (hitpoints (OfArmored (NewArmoredShip 4 2 3))))
    by (unfold is_int; rewrite min_int_val, max_int_val; cbn; lia).
  exact (TakeHit_contract (OfArmored (NewArmoredShip 4 2 3)) Hint).
Defined.

(** ** Shots and the state of the game *)

(** X5. An accepted shot reports a hit exactly when [hitAt] holds
    before it; the game is over after it exactly when it reports the
    ship destroyed; a shot that destroys is a hit; and the ship is
    touched (by one [TakeHit]) by a hit only. *)
Theorem TakeShot_agrees_with_hitAt {S} `{Ship.t S} (g : Game.t S)
    (r c : int) :
  board_wf (Game.Board g) ->
  Game.Over g = false ->
  Board.InBounds (Game.Board g) r c = true ->
  exists res g',
    Game.TakeShot g r c = Some (res, None, g') /\
    Hit res = Game.hitAt g r c /\
    Game.Over g' = Destroyed res /\
    (Destroyed res = true -> Hit res = true) /\
    Game.Ship g'
    = (if Game.hitAt g r c then (Ship.TakeHit (Game.Ship g)).2
       else Game.Ship g).
Proof.
  intros Hwf Hover Hin. destruct (Game.hitAt g r c) eqn:Hhit.
  - destruct (hit_branch g r c Hwf Hover Hin Hhit) as (b & _ & Hshot).
    do 2 eexists. split; [exact Hshot |]. cbn. auto.
  - destruct (miss_branch g r c Hwf Hover Hin Hhit)
      as (ch & b & _ & _ & Hshot).
    do 2 eexists. split; [exact Hshot |]. cbn. auto.
Qed.

Lemma TakeShot_agrees_with_hitAt_witness :
  exists res g',
    Game.TakeShot
      (Game.mk (Board.mk 1 [[rune_lit "H"]]) (NewArmoredShip 0 0 1) false 1)
      0 0
    = Some (res, None, g') /\
    Hit res = true /\
    Game.Over g' = Destroyed res /\
    (Destroyed res = true -> Hit res = true) /\
    Game.Ship g' = NewArmoredShip 0 0 0.
Proof.
  assert (Hwf : board_wf (Board.mk 1 [[rune_lit "H"]]))
    by (split; [reflexivity | repeat constructor]).
  exact (TakeShot_agrees_with_hitAt
           (Game.mk (Board.mk 1 [[rune_lit "H"]]) (NewArmoredShip 0 0 1)
                    false 1) 0 0 Hwf eq_refl eq_refl).
Defined.

Lemma shoot_after_over {S} `{Ship.t S} (shots : list (int * int))
    (g : Game.t S) :
  Game.Over g = true -> Game.shoot shots g = Some g.
Proof.
  intros Hover. induction shots as [| [r c] shots IH]; [reflexivity |].
  cbn [Game.shoot]. unfold Game.TakeShot. rewrite Hover.
  cbn [mbind option_bind]. exact IH.
Qed.

(** X6. A game that is over is never changed again: any sequence of
    shots returns the very same game. *)
Theorem shoot_over_fixed {S} `{Ship.t S} (shots : list (int * int))
    (g : Game.t S) :
  Game.Over g = true -> Game.shoot shots g = Some g.
Proof. apply shoot_after_over. Qed.

Lemma shoot_over_fixed_witness :
  Game.shoot [(0, 0); (7, -2); (0, 0)]
    (Game.mk (Board.mk 1 [[rune_lit "X"]]) (NewBasicShip 0 0) true 1)
  = Some (Game.mk (Board.mk 1 [[rune_lit "X"]]) (NewBasicShip 0 0) true 1).
Proof.
  exact (shoot_over_fixed [(0, 0); (7, -2); (0, 0)]
           (Game.mk (Board.mk 1 [[rune_lit "X"]]) (NewBasicShip 0 0) true 1)
           eq_refl).
Defined.

Lemma ShipValue_destroyed_dead (v : ShipValue) :
  (Ship.TakeHit v).1 = true -> Ship.Alive (Ship.TakeHit v).2 = false.
Proof.
  assert (Halive : forall w : ShipValue,
            Ship.Alive w = (hitpoints w >? 0)) by (intros [s | s]; reflexivity).
  rewrite Halive, Z.gtb_ltb.
  destruct (ShipValue_TakeHit_cases v) as [[Hdead ->] | (Hpos & -> & ->)];
    cbn [fst snd].
  - intros _. apply Z.ltb_ge. assumption.
  - intros Hle%Z.leb_le. apply Z.ltb_ge. assumption.
Qed.

Lemma TakeShot_over_dead (g g' : Game.t ShipValue) (r c : int)
    (res : ShotResult) (err : option error) :
  (Game.Over g = true -> Ship.Alive (Game.Ship g) = false) ->
  Game.TakeShot g r c = Some (res, err, g') ->
  Game.Over g' = true -> Ship.Alive (Game.Ship g') = false.
Proof.
  intros Hinv.
  destruct (Game.Over g) eqn:Hover;
    [| destruct (Board.InBounds (Game.Board g) r c) eqn:Hin].
  - destruct (TakeShot_rejected g r c) as [e ->]; [auto |].
    intros [= _ _ <-] _. auto.
  - rewrite TakeShot_accepted by assumption. cbn zeta.
    destruct (Game.hitAt g r c).
    + destruct (Board.set_cell _ _ _ _) as [b |]; [| discriminate].
      intros [= _ _ <-]. cbn [Game.Over Game.Ship].
      apply ShipValue_destroyed_dead.
    + destruct (Board.cell _ _ _) as [ch |]; [| discriminate].
      cbn [mbind option_bind]. destruct (ch =? rune_lit ".").
      * destruct (Board.set_cell _ _ _ _) as [b |]; [| discriminate].
        intros [= _ _ <-]. discriminate.
      * intros [= _ _ <-]. discriminate.
  - destruct (TakeShot_rejected g r c) as [e ->]; [auto |].
    intros [= _ _ <-]. rewrite Hover. discriminate.
Qed.

(** X7. In a game played from [NewGame] with a basic or an armored
    ship, the game is over only when the ship is no longer alive. *)
Theorem over_only_when_dead (size : int) (ship : ShipValue)
    (shots : list (int * int)) :
  0 <= size <= max_int ->
  exists g0 g,
    NewGame size ship = Some g0 /\
    Game.shoot shots g0 = Some g /\
    (Game.Over g = true -> Ship.Alive (Game.Ship g) = false).
Proof.
  intros Hsize.
  destruct (NewGame_spec size ship Hsize) as (b & Hnew & _ & Hwf & _).
  destruct (shoot_wf shots _ Hwf) as (g & Hg & _).
  do 2 eexists. split; [exact Hnew |]. split; [exact Hg |].
  assert (Hstart : Game.Over (Game.mk b ship false 0) = true ->
                   Ship.Alive (Game.Ship (Game.mk b ship false 0)) = false)
    by discriminate.
  revert Hg Hstart. generalize (Game.mk b ship false 0). clear.
  induction shots as [| [r c] shots IH]; intros g0 Hg Hinv.
  - injection Hg as <-. assumption.
  - cbn [Game.shoot] in Hg.
    destruct (Game.TakeShot g0 r c) as [[[res err] g1] |] eqn:Hshot;
      [| discriminate].
    cbn [mbind option_bind] in Hg.
    apply (IH g1 Hg). apply (TakeShot_over_dead _ _ _ _ _ _ Hinv Hshot).
Qed.

Lemma over_only_when_dead_witness :
  exists g0 g,
    NewGame 2 (OfBasic (NewBasicShip 1 1)) = Some g0 /\
    Game.shoot [(0, 1); (1, 1); (1, 1)] g0 = Some g /\
    (Game.Over g = true -> Ship.Alive (Game.Ship g) = false).
Proof.
  assert (Hsize : 0 <= 2 <= max_int) by (rewrite max_int_val; lia).
  exact (over_only_when_dead 2 (OfBasic (NewBasicShip 1 1))
           [(0, 1); (1, 1); (1, 1)] Hsize).
Defined.

Lemma shoot_dead_ship {S} `{Ship.t S} (shots : list (int * int)) :
  forall g : Game.t S,
  board_wf (Game.Board g) ->
  Game.Over g = false ->
  Ship.Alive (Game.Ship g) = false ->
  exists g',
    Game.shoot shots g = Some g' /\
    Game.Over g' = false /\
    Game.Ship g' = Game.Ship g.
Proof.
  induction shots as [| [r c] shots IH]; intros g Hwf Hover Hdead.
  - exists g. auto.
  - cbn [Game.shoot].
    destruct (Board.InBounds (Game.Board g) r c) eqn:Hin.
    + assert (Hmiss : Game.hitAt g r c = false)
        by (apply hitAt_false; auto).
      destruct (miss_branch g r c Hwf Hover Hin Hmiss)
        as (ch & b & Hch & Hb & ->).
      cbn [mbind option_bind].
      destruct (IH (Game.mk b (Game.Ship g) false
                            (wrap (Game.Shots g + 1))))
        as (g' & Hg' & Hover' & Hship');
        [| reflexivity | exact Hdead | eauto].
      cbn [Game.Board]. destruct (ch =? rune_lit ".").
      * apply (set_cell_Some _ _ _ _ _ Hb). assumption.
      * subst b. assumption.
    + destruct (TakeShot_rejected g r c) as [e ->]; [auto |].
      cbn [mbind option_bind]. apply IH; assumption.
Qed.

(** X8. With a ship that is not alive (an armored ship built with no
    armor, say) no shot is a hit: whatever is fired, the game never
    becomes over and the ship is never touched. *)
Theorem dead_ship_never_over {S} `{Ship.t S} (shots : list (int * int))
    (g : Game.t S) :
  board_wf (Game.Board g) ->
  Game.Over g = false ->
  Ship.Alive (Game.Ship g) = false ->
  exists g',
    Game.shoot shots g = Some g' /\
    Game.Over g' = false /\
    Game.Ship g' = Game.Ship g.
Proof. apply shoot_dead_ship. Qed.

Lemma dead_ship_never_over_witness :
  exists g',
    Game.shoot [(0, 0); (0, 0); (1, 0)]
      (Game.mk (Board.mk 1 [[rune_lit "."]]) (NewArmoredShip 0 0 0) false 0)
    = Some g' /\
    Game.Over g' = false /\
    Game.Ship g' = NewArmoredShip 0 0 0.
Proof.
  assert (Hwf : board_wf (Board.mk 1 [[rune_lit "."]]))
    by (split; [reflexivity | repeat constructor]).
  exact (dead_ship_never_over [(0, 0); (0, 0); (1, 0)]
           (Game.mk (Board.mk 1 [[rune_lit "."]]) (NewArmoredShip 0 0 0)
                    false 0) Hwf eq_refl eq_refl).
Defined.

Lemma TakeShot_Shots {S} `{Ship.t S} (g g' : Game.t S) (r c : int)
    (res : ShotResult) (err : option error) :
  Game.TakeShot g r c = Some (res, err, g') ->
  Game.Shots g'
  = match err with
    | Some _ => Game.Shots g
    | None => wrap (Game.Shots g + 1)
    end.
Proof.
  destruct (Game.Over g) eqn:Hover;
    [| destruct (Board.InBounds (Game.Board g) r c) eqn:Hin].
  - destruct (TakeShot_rejected g r c) as [e ->]; [auto |].
    intros [= _ <- <-]. reflexivity.
  - rewrite TakeShot_accepted by assumption. cbn zeta.
    destruct (Game.hitAt g r c).
    + destruct (Board.set_cell _ _ _ _) as [b |]; [| discriminate].
      intros [= _ <- <-]. reflexivity.
    + destruct (Board.cell _ _ _) as [ch |]; [| discriminate].
      cbn [mbind option_bind]. destruct (ch =? rune_lit ".").
      * destruct (Board.set_cell _ _ _ _) as [b |]; [| discriminate].
        intros [= _ <- <-]. reflexivity.
      * intros [= _ <- <-]. reflexivity.
  - destruct (TakeShot_rejected g r c) as [e ->]; [auto |].
    intros [= _ <- <-]. reflexivity.
Qed.



(** ** Sinking the ship *)

Lemma shoot_sinks (n : nat) : forall (g : Game.t ShipValue) (r c : int),
  board_wf (Game.Board g) ->
  Game.Over g = false ->
  Board.InBounds (Game.Board g) r c = true ->
  Ship.Position (Game.Ship g) = (r, c) ->
  hitpoints (Game.Ship g) = Z.of_nat (S n) ->
  min_int <= Game.Shots g ->
  Game.Shots g + Z.of_nat (S n) <= max_int ->
  Z.of_nat (S n) <= max_int ->
  exists g',
    Game.shoot (replicate (S n) (r, c)) g = Some g' /\
    Game.Over g' = true /\
    Game.Shots g' = Game.Shots g + Z.of_nat (S n) /\
    Ship.Alive (Game.Ship g') = false /\
    Board.cell (Game.Board g') r c = Some (rune_lit "X").
Proof.
  induction n as [| n IH]; intros g r c Hwf Hover Hin Hpos Hhp Hlo Hhi Hmax.
  all: assert (Hhit : Game.hitAt g r c = true)
         by (apply hitAt_spec; split; [assumption |];
             apply ShipValue_alive_hitpoints; lia).
  all: destruct (hit_branch g r c Hwf Hover Hin Hhit) as (b & Hb & Hshot).
  all: destruct (set_cell_Some _ _ _ _ _ Hb) as (Hsz & Hcell & _ & Hwf').
  all: destruct (ShipValue_TakeHit_cases (Game.Ship g))
         as [[Hdead _] | (_ & Hhp' & Hd)]; [lia |].
  all: rewrite wrap_id in Hhp', Hd
         by (unfold is_int; pose proof min_int_val; lia).
  all: rewrite replicate_S; cbn [Game.shoot]; rewrite Hshot;
       cbn [mbind option_bind].
  all: rewrite Hd in *; rewrite wrap_id by (unfold is_int; lia).
  - replace (hitpoints (Game.Ship g) - 1 <=? 0) with true in *
      by (symmetry; apply Z.leb_le; lia).
    cbn [replicate Game.shoot].
    eexists. split; [reflexivity |]. cbn [Game.Over Game.Shots Game.Board
                                          Game.Ship].
    split; [reflexivity |]. split; [reflexivity |]. split; [| assumption].
    destruct (Ship.Alive (Ship.TakeHit (Game.Ship g)).2) eqn:Halive;
      [| reflexivity].
    apply ShipValue_alive_hitpoints in Halive. lia.
  - replace (hitpoints (Game.Ship g) - 1 <=? 0) with false in *
      by (symmetry; apply Z.leb_gt; lia).
    match goal with |- exists _, Game.shoot _ ?g1 = _ /\ _ =>
      destruct (IH g1 r c) as (g' & Hg' & Hover' & Hshots' & Hdead' & Hcell')
    end; cbn [Game.Over Game.Shots Game.Board Game.Ship];
      try (apply Hwf'; assumption); try reflexivity; try lia.
    + apply InBounds_spec. rewrite Hsz. apply InBounds_spec. assumption.
    + rewrite ShipValue_position_fixed. assumption.
    + exists g'. split; [assumption |]. split; [assumption |].
      cbn [Game.Shots] in Hshots'. split; [lia |]. auto.
Qed.

Lemma main_game_sunk (armor size row col : int) :
  armor <= max_int ->
  size <= max_int ->
  (size <= 0 -> main_game armor size row col = None) /\
  (0 <= row < size -> 0 <= col < size ->
   exists g g',
     main_game armor size row col = Some g /\
     Game.Over g = false /\
     Game.Shots g = 0 /\
     Game.hitAt g row col = true /\
     Game.shoot (replicate (Z.to_nat (Z.max armor 1)) (row, col)) g
     = Some g' /\
     Game.Over g' = true /\
     Game.Shots g' = Z.max armor 1 /\
     Board.cell (Game.Board g') row col = Some (rune_lit "X")).
Proof.
  intros Harmor Hsize. unfold main_game. split.
  - intros Hle. destruct (Z.leb_spec size 0); [reflexivity | lia].
  - intros Hrow Hcol. destruct (Z.leb_spec size 0); [lia |].
    set (ship := if armor >? 0 then OfArmored (NewArmoredShip row col armor)
                 else OfBasic (NewBasicShip row col)).
    assert (Hpos : Ship.Position ship = (row, col))
      by (unfold ship; destruct (armor >? 0); reflexivity).
    assert (Hhp : hitpoints ship = Z.max armor 1).
    { unfold ship. rewrite Z.gtb_ltb.
      destruct (Z.ltb_spec 0 armor); cbn; lia. }
    destruct (NewGame_spec size ship) as (b & -> & Hsz & Hwf & _ & _);
      [lia |].
    assert (Hin : Board.InBounds b row col = true)
      by (apply InBounds_spec; lia).
    assert (Hn : Z.max armor 1 = Z.of_nat (S (Z.to_nat (Z.max armor 1) - 1)))
      by lia.
    destruct (shoot_sinks (Z.to_nat (Z.max armor 1) - 1)
                (Game.mk b ship false 0) row col)
      as (g' & Hg' & Hover' & Hshots' & _ & Hcell');
      cbn [Game.Board Game.Ship Game.Over Game.Shots];
      try assumption; try reflexivity;
      try (pose proof min_int_val; lia).
    exists (Game.mk b ship false 0), g'.
    split; [reflexivity |]. split; [reflexivity |]. split; [reflexivity |].
    split.
    { apply hitAt_spec. split; [assumption |].
      apply ShipValue_alive_hitpoints. cbn [Game.Ship]. lia. }
    replace (S (Z.to_nat (Z.max armor 1) - 1)) with (Z.to_nat (Z.max armor 1))
      in Hg' by lia.
    split; [assumption |]. split; [assumption |].
    cbn [Game.Shots] in Hshots'. split; [lia | assumption].
Qed.



(** ** Console *)

Lemma scanned_replicate (n : nat) (r c : int) :
  scanned (replicate n (Scanned r c)) = replicate n (r, c).
Proof.
  induction n as [| n IH]; [reflexivity |].
  cbn [replicate]. unfold scanned in *. cbn [omap list_omap]. rewrite IH.
  reflexivity.
Qed.

(** One pass over the inputs: the game that results is the one
    [shoot] computes from the coordinates read, the loop has returned
    exactly when that game is over, and what was written is kept. *)
Lemma RunConsoleUI_run {S} `{Ship.t S} (stdin : list scan) :
  forall (g : Game.t S) (stdout : list string),
  board_wf (Game.Board g) ->
  Board.Size (Game.Board g) <= max_int ->
  exists st stdout' g',
    RunConsoleUI stdin g stdout = Some (st, stdout', g') /\
    Game.shoot (scanned stdin) g = Some g' /\
    (st = Returned <-> Game.Over g' = true) /\
    (exists more, stdout' = stdout ++ more) /\
    (st = Returned ->
     exists before board,
       Board_String (Game.Board g') = Some board /\
       stdout' = before ++ [Println "Final board: "; board]).
Proof.
  induction stdin as [| input stdin IH]; intros g stdout Hwf Hmax.
  all: destruct (Board_String_bytes _ Hwf Hmax) as (board & Hboard & _).
  all: cbn [RunConsoleUI]; rewrite Hboard; cbn [mbind option_bind].
  all: destruct (Game.Over g) eqn:Hover.
  1, 3: do 3 eexists; split; [reflexivity |];
        split; [apply shoot_after_over; assumption |];
        split; [tauto |]; split; [eauto |]; eauto.
  - do 3 eexists. split; [reflexivity |]. split; [reflexivity |].
    split; [rewrite Hover; split; discriminate |]. split; [eauto |].
    discriminate.
  - assert (Hnext : forall (g1 : Game.t S) line,
              board_wf (Game.Board g1) ->
              Board.Size (Game.Board g1) = Board.Size (Game.Board g) ->
              Game.shoot (scanned (input :: stdin)) g
              = Game.shoot (scanned stdin) g1 ->
              exists st stdout' g',
                RunConsoleUI stdin g1 ((stdout ++ [board]) ++ [line])
                = Some (st, stdout', g') /\
                Game.shoot (scanned (input :: stdin)) g = Some g' /\
                (st = Returned <-> Game.Over g' = true) /\
                (exists more, stdout' = stdout ++ more) /\
                (st = Returned ->
                 exists before board',
                   Board_String (Game.Board g') = Some board' /\
                   stdout' = before ++ [Println "Final board: "; board'])).
    { intros g1 line Hwf1 Hsz1 Hshoot.
      destruct (IH g1 ((stdout ++ [board]) ++ [line]) Hwf1)
        as (st & stdout' & g' & Hrun & Hg' & Hst & [more ->] & Hfinal);
        [rewrite Hsz1; assumption |].
      exists st, (((stdout ++ [board]) ++ [line]) ++ more), g'.
      split; [assumption |]. split; [rewrite Hshoot; assumption |].
      split; [assumption |]. split; [| assumption].
      exists ([board; line] ++ more). rewrite <- !app_assoc. reflexivity. }
    destruct input as [err | r c].
    + apply Hnext; [assumption | reflexivity | reflexivity].
    + destruct (TakeShot_wf g r c Hwf) as (res & err & g1 & Hshot & Hwf1).
      rewrite Hshot. cbn [mbind option_bind].
      assert (Hshoot : Game.shoot (scanned (Scanned r c :: stdin)) g
                       = Game.shoot (scanned stdin) g1).
      { unfold scanned. cbn [omap list_omap Game.shoot]. rewrite Hshot.
        reflexivity. }
      pose proof (TakeShot_Size _ _ _ _ _ _ Hshot) as Hsz1.
      destruct err as [err |]; apply Hnext; assumption.
Qed.

(** X11. Whatever is typed, the console plays the game that [TakeShot]
    defines: after the inputs are consumed the game is the one obtained
    by firing, in order, the coordinates that were read; an input that
    cannot be read changes nothing; and the loop has returned exactly
    when that game is over. *)
Theorem RunConsoleUI_plays_shoot {S} `{Ship.t S} (stdin : list scan)
    (g : Game.t S) (stdout : list string) :
  board_wf (Game.Board g) ->
  Board.Size (Game.Board g) <= max_int ->
  exists st stdout' g',
    RunConsoleUI stdin g stdout = Some (st, stdout', g') /\
    Game.shoot (scanned stdin) g = Some g' /\
    (st = Returned <-> Game.Over g' = true).
Proof.
  intros Hwf Hmax.
  destruct (RunConsoleUI_run stdin g stdout Hwf Hmax)
    as (st & stdout' & g' & Hrun & Hg' & Hst & _).
  eauto 6.
Qed.

Lemma RunConsoleUI_plays_shoot_witness :
  exists st stdout' g',
    RunConsoleUI [Scanned 0 1; ScanError "EOF"%string; Scanned 0 0]
      (Game.mk (Board.mk 1 [[rune_lit "."]]) (NewBasicShip 0 0) false 0) []
    = Some (st, stdout', g') /\
    Game.shoot [(0, 1); (0, 0)]
      (Game.mk (Board.mk 1 [[rune_lit "."]]) (NewBasicShip 0 0) false 0)
    = Some g' /\
    (st = Returned <-> Game.Over g' = true).
Proof.
  assert (Hwf : board_wf (Board.mk 1 [[rune_lit "."]]))
    by (split; [reflexivity | repeat constructor]).
  assert (Hmax : 1 <= max_int) by (rewrite max_int_val; lia).
  exact (RunConsoleUI_plays_shoot
           [Scanned 0 1; ScanError "EOF"%string; Scanned 0 0]
           (Game.mk (Board.mk 1 [[rune_lit "."]]) (NewBasicShip 0 0) false 0)
           [] Hwf Hmax).
Defined.

(** X12. The console only appends to what it has written, and when
    the loop returns the last two things written are the line
    ["Final board: "] and the rendering of the final board. *)
Theorem RunConsoleUI_output {S} `{Ship.t S} (stdin : list scan)
    (g : Game.t S) (stdout : list string) :
  board_wf (Game.Board g) ->
  Board.Size (Game.Board g) <= max_int ->
  exists st stdout' g',
    RunConsoleUI stdin g stdout = Some (st, stdout', g') /\
    (exists more, stdout' = stdout ++ more) /\
    (st = Returned ->
     exists before board,
       Board_String (Game.Board g') = Some board /\
       stdout' = before ++ [Println "Final board: "; board]).
Proof.
  intros Hwf Hmax.
  destruct (RunConsoleUI_run stdin g stdout Hwf Hmax)
    as (st & stdout' & g' & Hrun & _ & _ & Hmore & Hfinal).
  eauto 6.
Qed.

Lemma RunConsoleUI_output_witness :
  exists st stdout' g',
    RunConsoleUI [Scanned 0 0]
      (Game.mk (Board.mk 1 [[rune_lit "."]]) (NewBasicShip 0 0) false 0)
      ["hello"%string]
    = Some (st, stdout', g') /\
    (exists more, stdout' = ["hello"%string] ++ more) /\
    (st = Returned ->
     exists before board,
       Board_String (Game.Board g') = Some board /\
       stdout' = before ++ [Println "Final board: "; board]).
Proof.
  assert (Hwf : board_wf (Board.mk 1 [[rune_lit "."]]))
    by (split; [reflexivity | repeat constructor]).
  assert (Hmax : 1 <= max_int) by (rewrite max_int_val; lia).
  exact (RunConsoleUI_output [Scanned 0 0]
           (Game.mk (Board.mk 1 [[rune_lit "."]]) (NewBasicShip 0 0) false 0)
           ["hello"%string] Hwf Hmax).
Defined.

Lemma main_game_wf (armor size row col : int) (g : Game.t ShipValue) :
  size <= max_int ->
  main_game armor size row col = Some g ->
  board_wf (Game.Board g) /\ Board.Size (Game.Board g) = size.
Proof.
  intros Hmax. unfold main_game.
  destruct (Z.leb_spec size 0); [discriminate |].
  match goal with |- NewGame _ ?ship = _ -> _ =>
    destruct (NewGame_spec size ship) as (b & -> & Hsz & Hwf & _); [lia |]
  end.
  intros [= <-]. auto.
Qed.

(** X13. At the console of the game that [main] starts, typing the
    coordinates of the ship [max armor 1] times makes [RunConsoleUI]
    return, with the game over and that many shots counted. *)
Theorem console_win (armor size row col : int) :
  armor <= max_int ->
  size <= max_int ->
  0 <= row < size ->
  0 <= col < size ->
  exists g stdout g',
    main_game armor size row col = Some g /\
    RunConsoleUI (replicate (Z.to_nat (Z.max armor 1)) (Scanned row col))
                 g []
    = Some (Returned, stdout, g') /\
    Game.Over g' = true /\
    Game.Shots g' = Z.max armor 1.
Proof.
  intros Harmor Hsize Hrow Hcol.
  destruct (proj2 (main_game_sunk armor size row col Harmor Hsize) Hrow Hcol)
    as (g & g' & Hg & _ & _ & _ & Hshoot & Hover & Hshots & _).
  destruct (main_game_wf _ _ _ _ _ Hsize Hg) as [Hwf Hsz].
  destruct (RunConsoleUI_run
              (replicate (Z.to_nat (Z.max armor 1)) (Scanned row col))
              g [] Hwf)
    as (st & stdout & g1 & Hrun & Hg1 & Hst & _); [lia |].
  rewrite scanned_replicate, Hshoot in Hg1. injection Hg1 as ->.
  assert (st = Returned) as -> by (apply Hst; assumption).
  exists g, stdout, g1. auto.
Qed.

Lemma console_win_witness :
  exists g stdout g',
    main_game 0 2 1 1 = Some g /\
    RunConsoleUI [Scanned 1 1] g [] = Some (Returned, stdout, g') /\
    Game.Over g' = true /\
    Game.Shots g' = 1.
Proof.
  assert (Harmor : 0 <= max_int) by (rewrite max_int_val; lia).
  assert (Hsize : 2 <= max_int) by (rewrite max_int_val; lia).
  assert (Hrow : 0 <= 1 < 2) by lia.
  exact (console_win 0 2 1 1 Harmor Hsize Hrow Hrow).
Defined.

(** ** HTTP *)

Section HandlerFacts.
Variable Atoi : string -> option int.
Context {S : Type} `{Ship.t S}.

Lemma shot_handler_cases (rStr cStr : string) (g : Game.t S) :
  board_wf (Game.Board g) ->
  Board.Size (Game.Board g) <= max_int ->
  (exists msg,
     shot_handler Atoi rStr cStr g = Some (HTTPError msg 400, g) /\
     (msg = "Need r and c"%string \/
      msg = "r and c must be numbers"%string \/
      msg = GameAlreadyOver \/ msg = OutOfBounds)) \/
  (exists ri ci res g' board,
     Atoi rStr = Some ri /\ Atoi cStr = Some ci /\
     Game.Over g = false /\
     Game.TakeShot g ri ci = Some (res, None, g') /\
     Board_String (Game.Board g') = Some board /\
     shot_handler Atoi rStr cStr g
     = Some (JSON (Hit res) (Destroyed res) (Game.Shots g') board
                  (Game.Over g'), g')).
Proof.
  intros Hwf Hmax. unfold shot_handler.
  destruct ((rStr =? "")%string || (cStr =? "")%string); [left; eauto |].
  destruct (Atoi rStr) as [ri |]; [| left; eauto 6].
  destruct (Atoi cStr) as [ci |]; [| left; eauto 6].
  destruct (Game.Over g) eqn:Hover;
    [| destruct (Board.InBounds (Game.Board g) ri ci) eqn:Hin].
  - left. unfold Game.TakeShot. rewrite Hover. cbn [mbind option_bind].
    eexists. split; [reflexivity |]. auto.
  - right. destruct (TakeShot_wf g ri ci Hwf)
      as (res & err & g' & Hshot & Hwf').
    assert (err = None) as ->.
    { rewrite TakeShot_accepted in Hshot by assumption. cbn zeta in Hshot.
      repeat match type of Hshot with
             | context [if ?b then _ else _] => destruct b
             | context [mbind _ ?m] =>
                 destruct m; cbn [mbind option_bind] in Hshot
             end; try discriminate; injection Hshot as _ <- _; reflexivity. }
    pose proof (TakeShot_Size _ _ _ _ _ _ Hshot) as Hsz.
    destruct (Board_String_bytes (Game.Board g') Hwf') as (board & Hboard & _);
      [rewrite Hsz; assumption |].
    exists ri, ci, res, g', board. rewrite Hshot. cbn [mbind option_bind].
    rewrite Hboard. cbn [mbind option_bind]. auto 7.
  - left. unfold Game.TakeShot. rewrite Hover, Hin. cbn [negb mbind option_bind].
    eexists. split; [reflexivity |]. auto.
Qed.

(** X14. The [/shot] handler always answers. When it answers with an
    error the status is 400, the message is one of the four the code
    has, and the game is exactly as it was: a rejected request costs
    no shot. *)
Theorem shot_handler_error (rStr cStr : string) (g : Game.t S) :
  board_wf (Game.Board g) ->
  Board.Size (Game.Board g) <= max_int ->
  exists reply g',
    shot_handler Atoi rStr cStr g = Some (reply, g') /\
    forall msg code, reply = HTTPError msg code ->
      code = 400 /\ g' = g /\
      (msg = "Need r and c"%string \/
       msg = "r and c must be numbers"%string \/
       msg = GameAlreadyOver \/ msg = OutOfBounds).
Proof.
  intros Hwf Hmax.
  destruct (shot_handler_cases rStr cStr g Hwf Hmax)
    as [(msg & -> & Hmsg)
       | (ri & ci & res & g' & board & _ & _ & _ & _ & _ & ->)].
  - do 2 eexists. split; [reflexivity |]. intros msg' code [= <- <-]. auto.
  - do 2 eexists. split; [reflexivity |]. discriminate.
Qed.

(** X15. When the [/shot] handler answers with the JSON object, the
    game was not over, one shot has been counted, and the object
    describes the game after the shot: [shots] is its counter, [board]
    the rendering of its board, [over] its state; [over] equals
    [destroyed], and [destroyed] implies [hit]. *)
Theorem shot_handler_json (rStr cStr : string) (g : Game.t S) :
  board_wf (Game.Board g) ->
  Board.Size (Game.Board g) <= max_int ->
  exists reply g',
    shot_handler Atoi rStr cStr g = Some (reply, g') /\
    forall hit destroyed shots board over,
      reply = JSON hit destroyed shots board over ->
      Game.Over g = false /\
      shots = Game.Shots g' /\
      Game.Shots g' = wrap (Game.Shots g + 1) /\
      Board_String (Game.Board g') = Some board /\
      over = Game.Over g' /\
      over = destroyed /\
      (destroyed = true -> hit = true).
Proof.
  intros Hwf Hmax.
  destruct (shot_handler_cases rStr cStr g Hwf Hmax)
    as [(msg & -> & _)
       | (ri & ci & res & g' & board & _ & _ & Hover & Hshot & Hboard & ->)].
  - do 2 eexists. split; [reflexivity |]. discriminate.
  - do 2 eexists. split; [reflexivity |].
    intros hit destroyed shots board' over [= <- <- <- <- <-].
    split; [assumption |]. split; [reflexivity |].
    split; [apply (TakeShot_Shots _ _ _ _ _ _ Hshot) |].
    split; [assumption |]. split; [reflexivity |].
    destruct (Board.InBounds (Game.Board g) ri ci) eqn:Hin.
    + rewrite TakeShot_accepted in Hshot by assumption. cbn zeta in Hshot.
      repeat match type of Hshot with
             | context [if ?b then _ else _] => destruct b
             | context [mbind _ ?m] =>
                 destruct m; cbn [mbind option_bind] in Hshot
             end; try discriminate; injection Hshot as <- <-;
        cbn; auto.
    + destruct (TakeShot_rejected g ri ci) as [e He]; [auto |].
      rewrite He in Hshot. discriminate.
Qed.

End HandlerFacts.

Lemma shot_handler_error_witness :
  exists reply g',
    shot_handler (fun _ => None) "one" "2"
      (Game.mk (Board.mk 1 [[rune_lit "."]]) (NewBasicShip 0 0) false 0)
    = Some (reply, g') /\
    forall msg code, reply = HTTPError msg code ->
      code = 400 /\
      g' = Game.mk (Board.mk 1 [[rune_lit "."]]) (NewBasicShip 0 0) false 0 /\
      (msg = "Need r and c"%string \/
       msg = "r and c must be numbers"%string \/
       msg = GameAlreadyOver \/ msg = OutOfBounds).
Proof.
  assert (Hwf : board_wf (Board.mk 1 [[rune_lit "."]]))
    by (split; [reflexivity | repeat constructor]).
  assert (Hmax : 1 <= max_int) by (rewrite max_int_val; lia).
  exact (shot_handler_error (fun _ => None) "one" "2"
           (Game.mk (Board.mk 1 [[rune_lit "."]]) (NewBasicShip 0 0) false 0)
           Hwf Hmax).
Defined.

Lemma shot_handler_json_witness :
  exists reply g',
    shot_handler (fun _ => Some 0) "0" "0"
      (Game.mk (Board.mk 1 [[rune_lit "."]]) (NewBasicShip 0 0) false 0)
    = Some (reply, g') /\
    forall hit destroyed shots board over,
      reply = JSON hit destroyed shots board over ->
      false = false /\
      shots = Game.Shots g' /\
      Game.Shots g' = wrap (0 + 1) /\
      Board_String (Game.Board g') = Some board /\
      over = Game.Over g' /\
      over = destroyed /\
      (destroyed = true -> hit = true).
Proof.
  assert (Hwf : board_wf (Board.mk 1 [[rune_lit "."]]))
    by (split; [reflexivity | repeat constructor]).
  assert (Hmax : 1 <= max_int) by (rewrite max_int_val; lia).
  exact (shot_handler_json (fun _ => Some 0) "0" "0"
           (Game.mk (Board.mk 1 [[rune_lit "."]]) (NewBasicShip 0 0) false 0)
           Hwf Hmax).
Defined.

(** ** The degenerate game *)

(** X16. With a ship that is not alive the console loop never returns,
    whatever is typed: it is left reading. *)
Theorem console_dead_ship {S} `{Ship.t S} (stdin : list scan)
    (g : Game.t S) (stdout : list string) :
  board_wf (Game.Board g) ->
  Board.Size (Game.Board g) <= max_int ->
  Game.Over g = false ->
  Ship.Alive (Game.Ship g) = false ->
  exists stdout' g',
    RunConsoleUI stdin g stdout = Some (Reading, stdout', g') /\
    Game.Over g' = false.
Proof.
  intros Hwf Hmax Hover Hdead.
  destruct (RunConsoleUI_run stdin g stdout Hwf Hmax)
    as (st & stdout' & g' & Hrun & Hg' & Hst & _).
  destruct (shoot_dead_ship (scanned stdin) g Hwf Hover Hdead)
    as (g1 & Hg1 & Hover1 & _).
  rewrite Hg1 in Hg'. injection Hg' as ->.
  destruct st.
  - eauto.
  - rewrite (proj1 Hst eq_refl) in Hover1. discriminate.
Qed.

Lemma console_dead_ship_witness :
  exists stdout' g',
    RunConsoleUI [Scanned 0 0; Scanned 0 0]
      (Game.mk (Board.mk 1 [[rune_lit "."]]) (NewArmoredShip 0 0 0) false 0)
      []
    = Some (Reading, stdout', g') /\
    Game.Over g' = false.
Proof.
  assert (Hwf : board_wf (Board.mk 1 [[rune_lit "."]]))
    by (split; [reflexivity | repeat constructor]).
  assert (Hmax : 1 <= max_int) by (rewrite max_int_val; lia).
  exact (console_dead_ship [Scanned 0 0; Scanned 0 0]
           (Game.mk (Board.mk 1 [[rune_lit "."]]) (NewArmoredShip 0 0 0)
                    false 0) [] Hwf Hmax eq_refl eq_refl).
Defined.

(** ** The two handlers together *)

(** X17. After [/shot] has answered with the JSON object, [/board]
    returns the text of its [board] field and leaves the game as
    [/shot] left it. *)
Theorem board_handler_after_shot {S} `{Ship.t S}
    (Atoi : string -> option int) (rStr cStr : string) (g g' : Game.t S)
    (hit destroyed over : bool) (shots : int) (board : string) :
  shot_handler Atoi rStr cStr g
  = Some (JSON hit destroyed shots board over, g') ->
  board_handler g' = Some (board, g').
Proof.
  unfold shot_handler, board_handler.
  destruct ((rStr =? "")%string || (cStr =? "")%string); [discriminate |].
  destruct (Atoi rStr) as [ri |]; [| discriminate].
  destruct (Atoi cStr) as [ci |]; [| discriminate].
  destruct (Game.TakeShot g ri ci) as [[[res err] g1] |]; [| discriminate].
  cbn [mbind option_bind]. destruct err as [err |]; [discriminate |].
  destruct (Board_String (Game.Board g1)) as [board1 |] eqn:Hboard;
    [| discriminate].
  cbn [mbind option_bind]. intros [= _ _ _ <- _ <-].
  rewrite Hboard. reflexivity.
Qed.

Lemma board_handler_after_shot_witness :
  board_handler
    (Game.mk (Board.mk 1 [[rune_lit "X"]]) (BasicShip.mk 0 0 0) true 1)
  = Some ("X "%string,
          Game.mk (Board.mk 1 [[rune_lit "X"]]) (BasicShip.mk 0 0 0) true 1).
Proof.
  exact (board_handler_after_shot (fun _ => Some 0) "0" "0"
           (Game.mk (Board.mk 1 [[rune_lit "."]]) (NewBasicShip 0 0) false 0)
           (Game.mk (Board.mk 1 [[rune_lit "X"]]) (BasicShip.mk 0 0 0) true 1)
           true true true 1 "X "%string eq_refl).
Defined.
